(** * The zoom component of react-medium-image-zoom (source/Base.tsx)

    A shallow embedding of the [Base] function component.  One value of
    [Comp] holds what an instance owns between two events of the browser's
    event loop: the [useState] cells of the lifecycle, the closures of
    the last committed render, and the part of the environment the component
    writes to (listeners, the modal image's one-shot [transitionend]
    listeners, the [setTimeout] queue, pending [decode()] promises, the
    dialog, and the calls made to [onZoomChange]).

    The event loop is [step]: one event of the environment (a render with
    new props, a DOM event, a timer, a promise settling, an unmount) runs the
    handlers the source attaches to it.  A re-render caused by a state setter
    is a [Render] with the props of the last commit.

    The two effects on the resolved target (lines 207-231 and 243-249)
    write none of these cells and are run on a state of their own,
    [TargetSide], further down.  The SVG clone (lines 259-272) rebuilds a
    DOM node from markup and is left out. *)

From Stdlib Require Import ZArith QArith Qminmax Lia.
From stdpp Require Import base decidable option list gmap strings.

(** ** JavaScript values that appear as element attributes *)

Inductive JsValue :=
  | JsUndefined
  | JsString (s : string)
  | JsOpaque (tag : nat).   (* a number, boolean, ref or style object *)

#[global] Instance JsValue_eq_dec : EqDecision JsValue.
Proof. solve_decision. Defined.

(** An attribute object ([ImgHTMLAttributes], JSX props). *)
Abbreviation Attrs := (gmap string JsValue).

(** [o?.k] on an optional attribute object. *)
Definition optChain (o : option Attrs) (k : string) : JsValue :=
  match o with
  | Some m => default JsUndefined (m !! k)
  | None => JsUndefined
  end.

(** JavaScript truthiness of such a value. *)
Definition truthy (v : JsValue) : bool :=
  match v with
  | JsUndefined => false
  | JsString s => negb (String.eqb s EmptyString)
  | JsOpaque _ => true
  end.

(** Truthiness of [boolean | undefined]. *)
Definition truthyB (v : option bool) : bool := default false v.

(** ** Lines 28-33: the lifecycle enumeration *)

Inductive ModalState := LOADED | LOADING | UNLOADED | UNLOADING.

#[global] Instance ModalState_eq_dec : EqDecision ModalState.
Proof. solve_decision. Defined.

(** ** Event targets, function identities, props *)

(** [HTMLElement | Window]; elements are told apart by a number. *)
Inductive EventTarget := Window | Element (n : nat).

#[global] Instance EventTarget_eq_dec : EqDecision EventTarget.
Proof. solve_decision. Defined.

(** The identity of a JavaScript function object. *)
Definition Fn := nat.

(** Lines 37-46, after the defaults of lines 49-56 are applied.  The labels
    and [children] are presentation only. *)
Record BaseProps := {
  isZoomed : bool;
  onZoomChange : option Fn;
  scrollableEl : EventTarget;
  zoomImg : option Attrs;
  zoomMargin : Q;
}.

(** Modelled from the spec: the utils module ([testDiv], [testImg],
    [testSvg], [getImgAlt], [getImgSrc]) is not part of the sources.  The
    target resolver "classifies" the element as "plain image, SVG, container
    div, or generic image-role element"; a resolved target carries that
    class and what the two getters return for it. *)
Inductive TargetKind := KImg | KSvg | KDiv | KRole.

#[global] Instance TargetKind_eq_dec : EqDecision TargetKind.
Proof. solve_decision. Defined.

Record Target := {
  kind : TargetKind;
  el_sizes : string;       (* imgEl.sizes *)
  el_srcset : string;      (* imgEl.srcset *)
  imgAlt : JsValue;        (* getImgAlt(imgEl) *)
  imgSrc : JsValue;        (* getImgSrc(imgEl) *)
}.

Definition testDiv (el : option Target) : bool :=
  match el with Some t => bool_decide (kind t = KDiv) | None => false end.
Definition testImg (el : option Target) : bool :=
  match el with Some t => bool_decide (kind t = KImg) | None => false end.
Definition testSvg (el : option Target) : bool :=
  match el with Some t => bool_decide (kind t = KSvg) | None => false end.

(** Lines 83-84. *)
Definition imgSizes (el : option Target) : JsValue :=
  match el with
  | Some t => if testImg el then JsString (el_sizes t) else JsUndefined
  | None => JsUndefined
  end.
Definition imgSrcSet (el : option Target) : JsValue :=
  match el with
  | Some t => if testImg el then JsString (el_srcset t) else JsUndefined
  | None => JsUndefined
  end.

(** Lines 88-91. *)
Definition zoomImgSizes (p : BaseProps) : JsValue := optChain (zoomImg p) "sizes".
Definition zoomImgSrc (p : BaseProps) : JsValue := optChain (zoomImg p) "src".
Definition zoomImgSrcSet (p : BaseProps) : JsValue := optChain (zoomImg p) "srcSet".
Definition hasZoomImg (p : BaseProps) : bool := truthy (zoomImgSrc p).

(** ** Closures and listeners *)

(** The listeners the component registers with [addEventListener] on the
    window and on [scrollableEl].  [handleResize] has an empty dependency
    list, so one function object serves the whole life of the instance;
    [handleScroll] is a new object whenever [handleClose] is, and calls the
    [onZoomChange] its [handleClose] captured. *)
Inductive Handler :=
  | HandleResize
  | HandleScroll (fn : Fn) (captured : option Fn).

#[global] Instance Handler_eq_dec : EqDecision Handler.
Proof. solve_decision. Defined.

Inductive EventType := Scroll | Resize.

#[global] Instance EventType_eq_dec : EqDecision EventType.
Proof. solve_decision. Defined.

Record Listener := {
  l_target : EventTarget;
  l_type : EventType;
  l_handler : Handler;
}.

#[global] Instance Listener_eq_dec : EqDecision Listener.
Proof. solve_decision. Defined.

(** The body handed to [setTimeout] by the one-shot [transitionend]
    listener of [zoom] (lines 182-186) and of [unzoom] (lines 195-201),
    with the [scrollableEl] and [handleScroll] its closure captured. *)
Inductive Deferred :=
  | AfterZoom (el : EventTarget) (hs : Handler)
  | AfterUnzoom (el : EventTarget) (hs : Handler).

(** What one committed render leaves behind: its props, the resolved
    target, the value [usePrevious] returned, and the identities of the
    memoised callbacks. *)
Record Commit := {
  props : BaseProps;
  imgEl : option Target;
  prevIsZoomed : option bool;
  handleOpenFn : Fn;
  handleCloseFn : Fn;
  handleScrollFn : Fn;
  loadZoomImgFn : Fn;
  zoomFn : Fn;
  unzoomFn : Fn;
}.

(** ** The component instance *)

Record Comp := {
  (* useState, lines 60-62 *)
  modalState : ModalState;
  isZoomImgLoaded : bool;
  forceUpdateVal : Z;
  (* React *)
  committed : option Commit;
  renders : nat;
  unmounted : bool;
  (* environment *)
  dialogOpen : bool;
  listeners : list Listener;
  modalImgOnce : list Deferred;
  timers : list Deferred;
  decoding : nat;
  reported : list (Fn * bool);
}.

(** Lines 60-62: the lazy initial states; nothing is attached yet. *)
Definition init : Comp := {|
  modalState := UNLOADED;
  isZoomImgLoaded := false;
  forceUpdateVal := 0%Z;
  committed := None;
  renders := 0;
  unmounted := false;
  dialogOpen := false;
  listeners := [];
  modalImgOnce := [];
  timers := [];
  decoding := 0;
  reported := [];
|}.

(** Field updates. *)
Definition setModalState (v : ModalState) (c : Comp) : Comp :=
  {| modalState := v; isZoomImgLoaded := isZoomImgLoaded c;
     forceUpdateVal := forceUpdateVal c; committed := committed c;
     renders := renders c; unmounted := unmounted c;
     dialogOpen := dialogOpen c; listeners := listeners c;
     modalImgOnce := modalImgOnce c; timers := timers c;
     decoding := decoding c; reported := reported c |}.

Definition setIsZoomImgLoaded (v : bool) (c : Comp) : Comp :=
  {| modalState := modalState c; isZoomImgLoaded := v;
     forceUpdateVal := forceUpdateVal c; committed := committed c;
     renders := renders c; unmounted := unmounted c;
     dialogOpen := dialogOpen c; listeners := listeners c;
     modalImgOnce := modalImgOnce c; timers := timers c;
     decoding := decoding c; reported := reported c |}.

(** [forceUpdate(f)] with an updater function. *)
Definition forceUpdate (f : Z -> Z) (c : Comp) : Comp :=
  {| modalState := modalState c; isZoomImgLoaded := isZoomImgLoaded c;
     forceUpdateVal := f (forceUpdateVal c); committed := committed c;
     renders := renders c; unmounted := unmounted c;
     dialogOpen := dialogOpen c; listeners := listeners c;
     modalImgOnce := modalImgOnce c; timers := timers c;
     decoding := decoding c; reported := reported c |}.

Definition setCommitted (r : Commit) (n : nat) (c : Comp) : Comp :=
  {| modalState := modalState c; isZoomImgLoaded := isZoomImgLoaded c;
     forceUpdateVal := forceUpdateVal c; committed := Some r;
     renders := n; unmounted := unmounted c;
     dialogOpen := dialogOpen c; listeners := listeners c;
     modalImgOnce := modalImgOnce c; timers := timers c;
     decoding := decoding c; reported := reported c |}.

Definition setUnmounted (c : Comp) : Comp :=
  {| modalState := modalState c; isZoomImgLoaded := isZoomImgLoaded c;
     forceUpdateVal := forceUpdateVal c; committed := committed c;
     renders := renders c; unmounted := true;
     dialogOpen := dialogOpen c; listeners := listeners c;
     modalImgOnce := modalImgOnce c; timers := timers c;
     decoding := decoding c; reported := reported c |}.

Definition setDialogOpen (v : bool) (c : Comp) : Comp :=
  {| modalState := modalState c; isZoomImgLoaded := isZoomImgLoaded c;
     forceUpdateVal := forceUpdateVal c; committed := committed c;
     renders := renders c; unmounted := unmounted c;
     dialogOpen := v; listeners := listeners c;
     modalImgOnce := modalImgOnce c; timers := timers c;
     decoding := decoding c; reported := reported c |}.

Definition setListeners (v : list Listener) (c : Comp) : Comp :=
  {| modalState := modalState c; isZoomImgLoaded := isZoomImgLoaded c;
     forceUpdateVal := forceUpdateVal c; committed := committed c;
     renders := renders c; unmounted := unmounted c;
     dialogOpen := dialogOpen c; listeners := v;
     modalImgOnce := modalImgOnce c; timers := timers c;
     decoding := decoding c; reported := reported c |}.

Definition setModalImgOnce (v : list Deferred) (c : Comp) : Comp :=
  {| modalState := modalState c; isZoomImgLoaded := isZoomImgLoaded c;
     forceUpdateVal := forceUpdateVal c; committed := committed c;
     renders := renders c; unmounted := unmounted c;
     dialogOpen := dialogOpen c; listeners := listeners c;
     modalImgOnce := v; timers := timers c;
     decoding := decoding c; reported := reported c |}.

Definition setTimers (v : list Deferred) (c : Comp) : Comp :=
  {| modalState := modalState c; isZoomImgLoaded := isZoomImgLoaded c;
     forceUpdateVal := forceUpdateVal c; committed := committed c;
     renders := renders c; unmounted := unmounted c;
     dialogOpen := dialogOpen c; listeners := listeners c;
     modalImgOnce := modalImgOnce c; timers := v;
     decoding := decoding c; reported := reported c |}.

Definition setDecoding (v : nat) (c : Comp) : Comp :=
  {| modalState := modalState c; isZoomImgLoaded := isZoomImgLoaded c;
     forceUpdateVal := forceUpdateVal c; committed := committed c;
     renders := renders c; unmounted := unmounted c;
     dialogOpen := dialogOpen c; listeners := listeners c;
     modalImgOnce := modalImgOnce c; timers := timers c;
     decoding := v; reported := reported c |}.

Definition setReported (v : list (Fn * bool)) (c : Comp) : Comp :=
  {| modalState := modalState c; isZoomImgLoaded := isZoomImgLoaded c;
     forceUpdateVal := forceUpdateVal c; committed := committed c;
     renders := renders c; unmounted := unmounted c;
     dialogOpen := dialogOpen c; listeners := listeners c;
     modalImgOnce := modalImgOnce c; timers := timers c;
     decoding := decoding c; reported := v |}.

(** ** Values derived during a render *)

(** Lines 93-95. *)
Definition isModalZoomed (p : BaseProps) (c : Comp) : bool :=
  isZoomed p &&
  (bool_decide (modalState c = LOADING) || bool_decide (modalState c = LOADED)).

Inductive Visibility := visible | hidden.

#[global] Instance Visibility_eq_dec : EqDecision Visibility.
Proof. solve_decision. Defined.

(** Lines 99-101: the [visibility] of the content wrapper. *)
Definition styleContent (c : Comp) : Visibility :=
  if bool_decide (modalState c = UNLOADED) then visible else hidden.

(** Lines 131-134. *)
Definition dataOverlayState (c : Comp) : Visibility :=
  if bool_decide (modalState c = UNLOADED) || bool_decide (modalState c = UNLOADING)
  then hidden
  else visible.

(** Lines 303-326: [refModalImg] is attached to the [<img>] rendered for
    an image or a div target and to the [<div>] rendered for an SVG. *)
Definition hasModalImg (r : Commit) : bool :=
  testImg (imgEl r) || testDiv (imgEl r) || testSvg (imgEl r).

(** The props before the spread of lines 305-308, as an object. *)
Definition ownImgAttrs (el : option Target) : Attrs :=
  {[ "alt" := default JsUndefined (imgAlt <$> el);
     "sizes" := imgSizes el;
     "src" := default JsUndefined (imgSrc <$> el);
     "srcSet" := imgSrcSet el ]}.

(** Line 309: what is spread into the element. *)
Definition spreadZoomImg (p : BaseProps) (c : Comp) : Attrs :=
  if isZoomImgLoaded c && bool_decide (modalState c = LOADED)
  then default ∅ (zoomImg p)
  else ∅.

(** Lines 310-315: the props written after the spread.  The ref, the style
    object and the boolean are opaque here. *)
Definition fixedImgAttrs (idModalImg : string) (h w : JsValue) : Attrs :=
  {[ "data-rmiz-modal-img" := JsOpaque 0;
     "height" := h;
     "id" := JsString idModalImg;
     "ref" := JsOpaque 1;
     "style" := JsOpaque 2;
     "width" := w ]}.

(** Lines 304-316: the props of the modal [<img>]; a later prop wins. *)
Definition modalImgAttrs (idModalImg : string) (h w : JsValue)
    (p : BaseProps) (el : option Target) (c : Comp) : Attrs :=
  fixedImgAttrs idModalImg h w ∪ (spreadZoomImg p c ∪ ownImgAttrs el).

(** Lines 303-318: the [<img>] is rendered for an image or a div target. *)
Definition modalImgElement (idModalImg : string) (h w : JsValue)
    (p : BaseProps) (el : option Target) (c : Comp) : option Attrs :=
  if testImg el || testDiv el
  then Some (modalImgAttrs idModalImg h w p el c)
  else None.

(** ** Handlers *)

(** [onZoomChange?.(v)] *)
Definition report (cb : option Fn) (v : bool) (c : Comp) : Comp :=
  match cb with
  | Some f => setReported (reported c ++ [(f, v)]) c
  | None => c
  end.

(** Lines 139-140. *)
Definition handleOpen (r : Commit) : Comp -> Comp := report (onZoomChange (props r)) true.
Definition handleClose (r : Commit) : Comp -> Comp := report (onZoomChange (props r)) false.

Record KeyboardEvent := {
  key : string;
  keyCode : Z;
  defaultPrevented : bool;
  propagationStopped : bool;
}.

Definition preventDefault (e : KeyboardEvent) : KeyboardEvent :=
  {| key := key e; keyCode := keyCode e;
     defaultPrevented := true; propagationStopped := propagationStopped e |}.
Definition stopPropagation (e : KeyboardEvent) : KeyboardEvent :=
  {| key := key e; keyCode := keyCode e;
     defaultPrevented := defaultPrevented e; propagationStopped := true |}.

Definition isEscape (e : KeyboardEvent) : bool :=
  String.eqb (key e) "Escape" || (keyCode e =? 27)%Z.

(** Lines 143-149. *)
Definition handleDialogKeyDown (r : Commit) (e : KeyboardEvent) (c : Comp)
    : KeyboardEvent * Comp :=
  if isEscape e
  then (stopPropagation (preventDefault e), handleClose r c)
  else (e, c).

(** The [handleScroll] of a render, as a listener. *)
Definition handleScroll (r : Commit) : Handler :=
  HandleScroll (handleScrollFn r) (onZoomChange (props r)).

(** Lines 152-160: the bodies of [handleScroll] and [handleResize]. *)
Definition runHandler (h : Handler) (c : Comp) : Comp :=
  match h with
  | HandleResize => forceUpdate (fun n => n + 1)%Z c
  | HandleScroll _ cb => report cb false (forceUpdate (fun n => n + 1)%Z c)
  end.

(** Lines 162-173: a truthy [zoomImgSrc] starts one decode, whose
    fulfilment calls [setIsZoomImgLoaded(true)]. *)
Definition loadZoomImg (r : Commit) (c : Comp) : Comp :=
  if truthy (zoomImgSrc (props r)) then setDecoding (S (decoding c)) c else c.

(** [addEventListener] ignores a listener that is already registered for
    the same type; [removeEventListener] removes the one that matches. *)
Definition addEventListener (t : EventTarget) (ty : EventType) (h : Handler)
    (c : Comp) : Comp :=
  let l := {| l_target := t; l_type := ty; l_handler := h |} in
  if bool_decide (l ∈ listeners c) then c else setListeners (listeners c ++ [l]) c.

Definition removeEventListener (t : EventTarget) (ty : EventType) (h : Handler)
    (c : Comp) : Comp :=
  let l := {| l_target := t; l_type := ty; l_handler := h |} in
  setListeners (filter (fun x => x ≠ l) (listeners c)) c.

(** Lines 176-188. *)
Definition zoom (r : Commit) (c : Comp) : Comp :=
  let c := setDialogOpen true c in
  let c := setModalState LOADING c in
  let c := loadZoomImg r c in
  if hasModalImg r
  then setModalImgOnce
         (modalImgOnce c ++ [AfterZoom (scrollableEl (props r)) (handleScroll r)]) c
  else c.

(** Lines 191-203. *)
Definition unzoom (r : Commit) (c : Comp) : Comp :=
  let c := setModalState UNLOADING c in
  if hasModalImg r
  then setModalImgOnce
         (modalImgOnce c ++ [AfterUnzoom (scrollableEl (props r)) (handleScroll r)]) c
  else c.

(** The timer bodies of lines 183-185 and 196-200. *)
Definition runDeferred (d : Deferred) (c : Comp) : Comp :=
  match d with
  | AfterZoom el hs =>
      let c := setModalState LOADED c in
      let c := addEventListener el Scroll hs c in
      addEventListener Window Resize HandleResize c
  | AfterUnzoom el hs =>
      let c := removeEventListener Window Resize HandleResize c in
      let c := removeEventListener el Scroll hs c in
      let c := setModalState UNLOADED c in
      let c := forceUpdate (fun _ => 0%Z) c in
      setDialogOpen false c
  end.

(** ** Hooks *)

(** Modelled from the spec: the hooks module ([usePrevious]) is not part of
    the sources.  The lifecycle is driven by "the external zoom toggle"
    changing between renders, so [usePrevious(isZoomed)] is the [isZoomed]
    of the previous render, and [undefined] on the first one. *)
Definition usePrevious (last : option Commit) : option bool :=
  (fun r => isZoomed (props r)) <$> last.

(** [useCallback]: the function of the last render is kept while the
    dependencies are unchanged; otherwise a new function object is made.
    A new object is named by the number of the render that made it; objects
    of different hooks are never compared. *)
Definition useCallback {D : Type} `{EqDecision D}
    (fresh : Fn) (deps : D) (last : option (Fn * D)) : Fn :=
  match last with
  | Some (fn, d) => if decide (deps = d) then fn else fresh
  | None => fresh
  end.

(** The render function: lines 69 and 139-203. *)
Definition nextCommit (p : BaseProps) (el : option Target) (c : Comp) : Commit :=
  let last := committed c in
  let fresh := S (renders c) in
  let hOpen := useCallback fresh (onZoomChange p)
      ((fun r => (handleOpenFn r, onZoomChange (props r))) <$> last) in
  let hClose := useCallback fresh (onZoomChange p)
      ((fun r => (handleCloseFn r, onZoomChange (props r))) <$> last) in
  let hScroll := useCallback fresh hClose
      ((fun r => (handleScrollFn r, handleCloseFn r)) <$> last) in
  let load := useCallback fresh (zoomImgSizes p, zoomImgSrc p, zoomImgSrcSet p)
      ((fun r => (loadZoomImgFn r,
                  (zoomImgSizes (props r), zoomImgSrc (props r),
                   zoomImgSrcSet (props r)))) <$> last) in
  let z := useCallback fresh (hScroll, load, scrollableEl p)
      ((fun r => (zoomFn r,
                  (handleScrollFn r, loadZoomImgFn r, scrollableEl (props r))))
         <$> last) in
  let uz := useCallback fresh (hScroll, scrollableEl p)
      ((fun r => (unzoomFn r, (handleScrollFn r, scrollableEl (props r))))
         <$> last) in
  {| props := p; imgEl := el; prevIsZoomed := usePrevious last;
     handleOpenFn := hOpen; handleCloseFn := hClose; handleScrollFn := hScroll;
     loadZoomImgFn := load; zoomFn := z; unzoomFn := uz |}.

Inductive Action := DoZoom | DoUnzoom.

#[global] Instance Action_eq_dec : EqDecision Action.
Proof. solve_decision. Defined.

(** Lines 235-239: the body of the effect. *)
Definition zoomEffectBody (r : Commit) : option Action :=
  if negb (truthyB (prevIsZoomed r)) && isZoomed (props r) then Some DoZoom
  else if truthyB (prevIsZoomed r) && negb (isZoomed (props r)) then Some DoUnzoom
  else None.

(** Line 240: its dependencies. *)
Definition zoomEffectDeps (r : Commit) : bool * option bool * Fn * Fn :=
  (isZoomed (props r), prevIsZoomed r, unzoomFn r, zoomFn r).

(** Lines 234-240: the effect runs after the first render and after a
    render that changed a dependency. *)
Definition zoomEffect (last : option Commit) (r : Commit) : option Action :=
  match last with
  | Some r0 =>
      if decide (zoomEffectDeps r0 = zoomEffectDeps r) then None
      else zoomEffectBody r
  | None => zoomEffectBody r
  end.

Definition perform (a : option Action) (r : Commit) (c : Comp) : Comp :=
  match a with
  | Some DoZoom => zoom r c
  | Some DoUnzoom => unzoom r c
  | None => c
  end.

(** Lines 253-256: the clean-up function of the last effect. *)
Definition cleanupLingering (r : Commit) (c : Comp) : Comp :=
  let c := removeEventListener Window Resize HandleResize c in
  removeEventListener Window Scroll (handleScroll r) c.

(** Lines 252-257: the clean-up of the previous render runs when
    [handleScroll] is a new function ([handleResize] never is). *)
Definition lingeringEffect (last : option Commit) (r : Commit) (c : Comp) : Comp :=
  match last with
  | Some r0 =>
      if decide (handleScrollFn r0 = handleScrollFn r) then c
      else cleanupLingering r0 c
  | None => c
  end.

(** One render and its commit. *)
Definition render (p : BaseProps) (el : option Target) (c : Comp) : Comp :=
  let last := committed c in
  let r := nextCommit p el c in
  let c := setCommitted r (S (renders c)) c in
  let c := lingeringEffect last r c in
  perform (zoomEffect last r) r c.

(** Unmounting runs the clean-up functions; timers and promises stay. *)
Definition unmount (c : Comp) : Comp :=
  match committed c with
  | Some r => setUnmounted (cleanupLingering r c)
  | None => setUnmounted c
  end.

(** ** Events *)

(** Where a click lands. *)
Inductive ClickTarget :=
  | OnTarget          (* the zoomable element inside the content *)
  | OnZoomButton      (* [data-rmiz-btn-zoom] *)
  | OnOverlay         (* [data-rmiz-modal-overlay], or the dialog itself *)
  | OnModalImg        (* [data-rmiz-modal-img] *)
  | OnUnzoomButton.   (* [data-rmiz-btn-unzoom] *)

(** The click handlers on the way from the clicked element to the root,
    innermost first.  Lines 243-249 keep [handleOpen] on the resolved
    target; the zoom button has it as [onClick] (line 285); the dialog has
    [handleClose] as [onClick] (line 296) and contains the overlay, the
    modal image and the unzoom button, which has [handleClose] as its own
    [onClick] (line 330). *)
Definition clickPath (r : Commit) (w : ClickTarget) : list (Comp -> Comp) :=
  match w with
  | OnTarget => if imgEl r is Some _ then [handleOpen r] else []
  | OnZoomButton => [handleOpen r]
  | OnOverlay => [handleClose r]
  | OnModalImg => if hasModalImg r then [handleClose r] else []
  | OnUnzoomButton => [handleClose r; handleClose r]
  end.

Inductive Event :=
  | Render (p : BaseProps) (el : option Target)
  | Unmount
  | TransitionEnd                   (* on the modal image *)
  | Timeout                         (* the oldest timer fires *)
  | DecodeResolved                  (* a [decode()] of [loadZoomImg] fulfils *)
  | DecodeRejected
  | Dispatch (t : EventTarget) (ty : EventType)
  | Click (w : ClickTarget)
  | KeyDown (e : KeyboardEvent)     (* on the dialog *)
  | DialogClose.                    (* the dialog's [close] event, line 297 *)

Definition attached (t : EventTarget) (ty : EventType) (c : Comp) : list Handler :=
  l_handler <$> filter (fun l => l_target l = t ∧ l_type l = ty) (listeners c).

(** The handlers React still holds: none once unmounted. *)
Definition mountedCommit (c : Comp) : option Commit :=
  if unmounted c then None else committed c.

(** The event loop.  After an unmount React holds no handler and renders
    nothing, but timers, promises and listeners that are still registered
    keep running; React drops their state updates, and since nothing reads
    the cells any more the setters are not guarded. *)
Definition step (c : Comp) (e : Event) : Comp :=
  match e with
  | Render p el => if unmounted c then c else render p el c
  | Unmount => if unmounted c then c else unmount c
  | TransitionEnd =>
      if unmounted c then c
      else setModalImgOnce [] (setTimers (timers c ++ modalImgOnce c) c)
  | Timeout =>
      match timers c with
      | d :: ds => runDeferred d (setTimers ds c)
      | [] => c
      end
  | DecodeResolved =>
      match decoding c with
      | S n => setIsZoomImgLoaded true (setDecoding n c)
      | O => c
      end
  | DecodeRejected => setDecoding (pred (decoding c)) c
  | Dispatch t ty => foldl (fun c h => runHandler h c) c (attached t ty c)
  | Click w =>
      match mountedCommit c with
      | Some r => foldl (fun c h => h c) c (clickPath r w)
      | None => c
      end
  | KeyDown e =>
      match mountedCommit c with
      | Some r => (handleDialogKeyDown r e c).2
      | None => c
      end
  | DialogClose =>
      match mountedCommit c with
      | Some r => handleClose r c
      | None => c
      end
  end.

Definition run (c : Comp) (es : list Event) : Comp := foldl step c es.

(** ** The lifecycle cycle *)

(** Unloaded→Loading→Loaded→Unloading→Unloaded. *)
Definition cycleEdge (a b : ModalState) : bool :=
  match a, b with
  | UNLOADED, LOADING | LOADING, LOADED
  | LOADED, UNLOADING | UNLOADING, UNLOADED => true
  | _, _ => false
  end.

(** A step that keeps the state or follows the cycle. *)
Definition onCycle (a b : ModalState) : bool :=
  bool_decide (a = b) || cycleEdge a b.

(** The [isZoomed] of the last render. *)
Definition lastIsZoomed (c : Comp) : option bool := usePrevious (committed c).

(** Unloaded and Loaded are the states at rest. *)
Definition atRest (c : Comp) : bool :=
  bool_decide (modalState c = UNLOADED) || bool_decide (modalState c = LOADED).

(** The owner is calm when it changes [isZoomed] only at rest. *)
Definition calm (c : Comp) (e : Event) : bool :=
  match e with
  | Render p _ =>
      unmounted c || bool_decide (isZoomed p = truthyB (lastIsZoomed c)) || atRest c
  | _ => true
  end.

Fixpoint calmRun (c : Comp) (es : list Event) : bool :=
  match es with
  | [] => true
  | e :: es' => calm c e && calmRun (step c e) es'
  end.

(** The callbacks waiting for the animation or for their timer. *)
Definition pending (c : Comp) : list Deferred := timers c ++ modalImgOnce c.

(** What holds between the events of a calm run. *)
Definition coherent (c : Comp) : Prop :=
  match modalState c with
  | UNLOADED => truthyB (lastIsZoomed c) = false ∧ pending c = []
  | LOADING =>
      lastIsZoomed c = Some true ∧
      (pending c = [] ∨ ∃ el hs, pending c = [AfterZoom el hs])
  | LOADED => lastIsZoomed c = Some true ∧ pending c = []
  | UNLOADING =>
      lastIsZoomed c = Some false ∧
      (pending c = [] ∨ ∃ el hs, pending c = [AfterUnzoom el hs])
  end.

(** The calls a list of listeners makes to [onZoomChange]. *)
Definition closeReports (hs : list Handler) : list (Fn * bool) :=
  omap (fun h => match h with
                 | HandleScroll _ (Some f) => Some (f, false)
                 | _ => None
                 end) hs.

(** How often the readiness flag goes from not ready to ready in a run. *)
Fixpoint readyFlips (c : Comp) (es : list Event) : nat :=
  match es with
  | [] => 0
  | e :: es' =>
      (if negb (isZoomImgLoaded c) && isZoomImgLoaded (step c e) then 1 else 0)
      + readyFlips (step c e) es'
  end.

(** ** Geometry *)

Record Size := { s_width : Q; s_height : Q }.

Record GeometryBox := {
  box_top : Q;
  box_left : Q;
  box_width : Q;
  box_height : Q;
}.

Inductive Mode := Collapsed | Expanded.

(** What the geometry engine reads from the page: the target's bounding
    box, the viewport, and the natural resolution of the active asset (the
    replacement when one is configured, else the target's own). *)
Record Layout := {
  targetRect : GeometryBox;
  viewport : Size;
  natural : Size;
}.

(** Modelled from the spec: [getStyleModalImg] (utils) is not part of the
    sources.  Spec 4.2: the expanded box "is the largest rectangle
    preserving the target's aspect ratio that fits within (viewport
    dimensions − 2×margin on each axis), centered in the viewport, but never
    exceeding the natural resolution" of the active asset; "all dimensions
    are non-negative".  The largest such rectangle scales the target by the
    smallest of the four ratios, and by nothing below zero. *)
Definition expandedScale (g : Layout) (margin : Q) : Q :=
  let tw := box_width (targetRect g) in
  let th := box_height (targetRect g) in
  Qmax 0
    (Qmin (Qmin ((s_width (viewport g) - 2 * margin) / tw)
                ((s_height (viewport g) - 2 * margin) / th))
          (Qmin (s_width (natural g) / tw) (s_height (natural g) / th)))%Q.

(** Modelled from the spec: [getStyleModalImg] (utils) is not part of the
    sources.  Spec 4.2, [computeBox(target, mode, margin)]: collapsed, the
    "box exactly overlays the target's current on-screen position and size";
    expanded, it is the scaled target "centered in the viewport"; "if target
    has zero width or height, expanded box degenerates to zero size". *)
Definition computeBox (g : Layout) (mode : Mode) (margin : Q) : GeometryBox :=
  match mode with
  | Collapsed => targetRect g
  | Expanded =>
      let tw := box_width (targetRect g) in
      let th := box_height (targetRect g) in
      let k := if Qeq_bool tw 0 || Qeq_bool th 0
               then 0%Q else expandedScale g margin in
      let w := (k * tw)%Q in
      let h := (k * th)%Q in
      {| box_top := (s_height (viewport g) - h) / 2;
         box_left := (s_width (viewport g) - w) / 2;
         box_width := w;
         box_height := h |}%Q
  end.

(** Lines 105-117: the style is computed once there is a target and either
    its natural asset has decoded or it is an SVG; the box is the expanded
    one while [isModalZoomed], and [zoomMargin] is the offset.  [None] is
    the empty style object. *)
Definition styleModalImg (p : BaseProps) (el : option Target)
    (loadedImgEl : bool) (g : Layout) (c : Comp) : option GeometryBox :=
  if bool_decide (is_Some el) && (loadedImgEl || testSvg el)
  then Some (computeBox g (if isModalZoomed p c then Expanded else Collapsed)
               (zoomMargin p))
  else None.

(** ** Runs used as examples *)

Definition plainProps (z : bool) (cb : option Fn) (el : EventTarget)
    (zi : option Attrs) : BaseProps :=
  {| isZoomed := z; onZoomChange := cb; scrollableEl := el;
     zoomImg := zi; zoomMargin := 0 |}.

Definition photo : Target :=
  {| kind := KImg; el_sizes := EmptyString; el_srcset := EmptyString;
     imgAlt := JsString "a photo"; imgSrc := JsString "small.png" |}.

Definition big : Attrs := {[ "src" := JsString "big.png" ]}.

(** One full session with a replacement that decodes. *)
Definition session (el : EventTarget) (cb : option Fn) : list Event :=
  [ Render (plainProps false cb el (Some big)) (Some photo);
    Render (plainProps true cb el (Some big)) (Some photo);
    DecodeResolved; TransitionEnd; Timeout;
    Render (plainProps false cb el (Some big)) (Some photo);
    TransitionEnd ].

Definition mountedBare : Comp :=
  run init [Render (plainProps false (Some 7) Window None) None].

Definition keyPress (k : string) (code : Z) : KeyboardEvent :=
  {| key := k; keyCode := code;
     defaultPrevented := false; propagationStopped := false |}.

(** A Loaded component: opened, animation finished, timer run. *)
Definition opened (el : EventTarget) (cb : option Fn) : Comp :=
  run init [ Render (plainProps false cb el (Some big)) (Some photo);
             Render (plainProps true cb el (Some big)) (Some photo);
             TransitionEnd; Timeout ].

(** Spec 8: a 200×150 target with no replacement in a 2000×2000 viewport. *)
Definition thumbnail : Layout :=
  {| targetRect := {| box_top := 10; box_left := 10;
                      box_width := 200; box_height := 150 |};
     viewport := {| s_width := 2000; s_height := 2000 |};
     natural := {| s_width := 200; s_height := 150 |} |}.

(** Spec 8: a 400×300 target with a 1600×1200 replacement in a 1000×800
    viewport. *)
Definition poster : Layout :=
  {| targetRect := {| box_top := 10; box_left := 10;
                      box_width := 400; box_height := 300 |};
     viewport := {| s_width := 1000; s_height := 800 |};
     natural := {| s_width := 1600; s_height := 1200 |} |}.

(** ** Kinds of events, listeners of the component, steady owners *)

(** The events that run a handler of lines 139-160: clicks, key presses,
    the dialog's [close], and scroll or resize on a target. *)
Definition isInput (e : Event) : bool :=
  match e with
  | Dispatch _ _ | Click _ | KeyDown _ | DialogClose => true
  | _ => false
  end.

Definition isRender (e : Event) : bool :=
  match e with Render _ _ => true | _ => false end.

(** The two listeners of lines 184-185. *)
Definition resizeListener : Listener :=
  {| l_target := Window; l_type := Resize; l_handler := HandleResize |}.
Definition scrollListener (el : EventTarget) (hs : Handler) : Listener :=
  {| l_target := el; l_type := Scroll; l_handler := hs |}.

(** An owner is steady when every render passes the same [onZoomChange]
    function and the same [scrollableEl]. *)
Definition steady (cb : option Fn) (el : EventTarget) (e : Event) : bool :=
  match e with
  | Render p _ =>
      bool_decide (onZoomChange p = cb) && bool_decide (scrollableEl p = el)
  | _ => true
  end.

(** An owner that is not steady: it opens a session with one
    [onZoomChange], passes another function while the component is Loaded,
    closes the session and opens a second one. *)
Definition callbackSwap (el : EventTarget) : list Event :=
  [ Render (plainProps false (Some 7) el (Some big)) (Some photo);
    Render (plainProps true (Some 7) el (Some big)) (Some photo);
    TransitionEnd; Timeout;
    Render (plainProps true (Some 8) el (Some big)) (Some photo);
    Render (plainProps false (Some 8) el (Some big)) (Some photo);
    TransitionEnd; Timeout;
    Render (plainProps true (Some 8) el (Some big)) (Some photo);
    TransitionEnd; Timeout ].

(** A render whose replacement has no usable [src]. *)
Definition srcless (e : Event) : bool :=
  match e with
  | Render p _ => negb (hasZoomImg p)
  | _ => true
  end.

(** A function object made by [useCallback] is named by a render that has
    happened. *)
Definition fnsBounded (c : Comp) : Prop :=
  ∀ r, committed c = Some r →
       handleCloseFn r ≤ renders c ∧ handleScrollFn r ≤ renders c.

(** A replacement that has a [srcSet] but no [src]. *)
Definition onlySrcSet : Attrs := {[ "srcSet" := JsString "big.png 2x" ]}.

(** Every resize listener is the one of line 185. *)
Definition resizeShaped (c : Comp) : Prop :=
  ∀ l, l ∈ listeners c → l_type l = Resize → l = resizeListener.

(** A run in which the owner keeps [isZoomed] raised. *)
Definition staysZoomed (e : Event) : bool :=
  match e with
  | Render p _ => isZoomed p
  | _ => true
  end.

(** The listeners a steady, calm run has registered in each state. *)
Definition expectedListeners (el : EventTarget) (hs : Handler) (m : ModalState)
    : list Listener :=
  match m with
  | LOADED | UNLOADING => [scrollListener el hs; resizeListener]
  | UNLOADED | LOADING => []
  end.

(** What holds between the events of a steady, calm run while the
    component is mounted. *)
Definition tidy (cb : option Fn) (el : EventTarget) (c : Comp) : Prop :=
  ∃ fn,
    (∀ r, committed c = Some r → handleScroll r = HandleScroll fn cb) ∧
    Forall (fun d => d = AfterZoom el (HandleScroll fn cb) ∨
                     d = AfterUnzoom el (HandleScroll fn cb)) (pending c) ∧
    listeners c = expectedListeners el (HandleScroll fn cb) (modalState c) ∧
    (modalState c = UNLOADED → forceUpdateVal c = 0%Z).

(** ** The effects on the resolved target (lines 207-231 and 243-249)

    The two effects that register listeners on the resolved target do not
    touch the cells of [Comp]; they are run here on a state of their own,
    with the same conventions: one event of the environment at a time. *)

(** A DOM element: its identity, and what the utils read from it. *)
Record Resolved := { el_id : nat; el_target : Target }.

Definition targetOf (el : option Resolved) : option Target := el_target <$> el.

(** The detached [Image] of lines 211-217. *)
Record Probe := { pr_src : JsValue; pr_sizes : string; pr_srcset : string }.

#[global] Instance Probe_eq_dec : EqDecision Probe.
Proof. solve_decision. Defined.

(** [v || ''] *)
Definition orEmpty (v : JsValue) : string :=
  match v with JsString s => s | _ => EmptyString end.

(** Lines 211-217: [sizes] and [srcset] are copied for an image only; a
    new [Image] has them empty. *)
Definition probeOf (el : option Resolved) : Probe :=
  {| pr_src := default JsUndefined (imgSrc <$> targetOf el);
     pr_sizes := if testImg (targetOf el) then orEmpty (imgSizes (targetOf el))
                 else EmptyString;
     pr_srcset := if testImg (targetOf el) then orEmpty (imgSrcSet (targetOf el))
                  else EmptyString |}.

(** The listeners of the two effects: the [handleImgLoad] closure made by
    the [k]-th run of the first effect, with the probe it builds, and a
    [handleOpen] function object. *)
Inductive TargetHandler :=
  | HandleImgLoad (k : nat) (pr : Probe)
  | HandleOpen (fn : Fn).

#[global] Instance TargetHandler_eq_dec : EqDecision TargetHandler.
Proof. solve_decision. Defined.

Inductive TargetEventType := Load | ClickEv.

#[global] Instance TargetEventType_eq_dec : EqDecision TargetEventType.
Proof. solve_decision. Defined.

Record TargetListener := {
  tl_el : nat;
  tl_type : TargetEventType;
  tl_handler : TargetHandler;
}.

#[global] Instance TargetListener_eq_dec : EqDecision TargetListener.
Proof. solve_decision. Defined.

(** Line 231 and line 249: the dependency lists. *)
Definition loadDeps (el : option Resolved)
    : option nat * JsValue * JsValue * JsValue * bool :=
  (el_id <$> el, imgSizes (targetOf el),
   default JsUndefined (imgSrc <$> targetOf el),
   imgSrcSet (targetOf el), testImg (targetOf el)).

Definition clickDeps (handleOpenFn : Fn) (el : option Resolved) : Fn * option nat :=
  (handleOpenFn, el_id <$> el).

(** An effect that has run: its dependencies and the listener its clean-up
    function removes, if any. *)
Definition Effect (D : Type) : Type := D * option TargetListener.

Record TargetSide := {
  loadedImgEl : option Probe;              (* useState, line 59 *)
  decodes : list Probe;                    (* [decode()] promises pending *)
  targetListeners : list TargetListener;
  loadEffect : option (Effect (option nat * JsValue * JsValue * JsValue * bool));
  clickEffect : option (Effect (Fn * option nat));
  effectRuns : nat;
  lastTarget : option (option Resolved * Fn);
  opens : list Fn;                         (* calls of a [handleOpen] *)
  targetGone : bool;                       (* unmounted *)
}.

Definition targetInit : TargetSide :=
  {| loadedImgEl := None; decodes := []; targetListeners := [];
     loadEffect := None; clickEffect := None; effectRuns := 0;
     lastTarget := None; opens := []; targetGone := false |}.

Definition addTargetListener (l : TargetListener) (ls : list TargetListener)
    : list TargetListener :=
  if bool_decide (l ∈ ls) then ls else ls ++ [l].

Definition removeTargetListener (l : option TargetListener)
    (ls : list TargetListener) : list TargetListener :=
  match l with
  | Some l => filter (fun x => x ≠ l) ls
  | None => ls
  end.

(** [imgEl?.addEventListener(...)]: nothing happens without an element. *)
Definition registerTargetListener (l : option TargetListener)
    (ls : list TargetListener) : list TargetListener :=
  match l with
  | Some l => addTargetListener l ls
  | None => ls
  end.

Definition loadListener (e : Resolved) (k : nat) (pr : Probe) : TargetListener :=
  {| tl_el := el_id e; tl_type := Load; tl_handler := HandleImgLoad k pr |}.

Definition clickListener (e : Resolved) (fn : Fn) : TargetListener :=
  {| tl_el := el_id e; tl_type := ClickEv; tl_handler := HandleOpen fn |}.

(** Does an effect run in this commit? *)
Definition effectDue {D : Type} `{EqDecision D} (deps : D)
    (last : option (Effect D)) : bool :=
  match last with
  | Some (d, _) => negb (bool_decide (deps = d))
  | None => true
  end.

Definition cleanupOf {D : Type} (last : option (Effect D)) : option TargetListener :=
  match last with
  | Some (_, l) => l
  | None => None
  end.

(** One commit: React first runs the clean-up functions of the effects whose
    dependencies changed, then their bodies, in the order of the source.
    Lines 208-231: with a truthy [imgSrc], [handleImgLoad] runs once and is
    registered for [load]; otherwise the effect does nothing and returns no
    clean-up.  Lines 243-249. *)
Definition targetRender (el : option Resolved) (handleOpenFn : Fn)
    (s : TargetSide) : TargetSide :=
  let dueL := effectDue (loadDeps el) (loadEffect s) in
  let dueC := effectDue (clickDeps handleOpenFn el) (clickEffect s) in
  let ls := targetListeners s in
  let ls := if dueL then removeTargetListener (cleanupOf (loadEffect s)) ls else ls in
  let ls := if dueC then removeTargetListener (cleanupOf (clickEffect s)) ls else ls in
  let src := truthy (default JsUndefined (imgSrc <$> targetOf el)) in
  let k := S (effectRuns s) in
  let newL :=
    if src then (fun e => loadListener e k (probeOf el)) <$> el else None in
  let newC := (fun e => clickListener e handleOpenFn) <$> el in
  let ls := if dueL then registerTargetListener newL ls else ls in
  let ls := if dueC then registerTargetListener newC ls else ls in
  {| loadedImgEl := loadedImgEl s;
     decodes := if dueL && src then decodes s ++ [probeOf el] else decodes s;
     targetListeners := ls;
     loadEffect := if dueL then Some (loadDeps el, newL) else loadEffect s;
     clickEffect := if dueC then Some (clickDeps handleOpenFn el, newC)
                    else clickEffect s;
     effectRuns := if dueL then k else effectRuns s;
     lastTarget := Some (el, handleOpenFn);
     opens := opens s;
     targetGone := targetGone s |}.

(** Unmounting runs both clean-up functions. *)
Definition targetUnmount (s : TargetSide) : TargetSide :=
  {| loadedImgEl := loadedImgEl s;
     decodes := decodes s;
     targetListeners :=
       removeTargetListener (cleanupOf (clickEffect s))
         (removeTargetListener (cleanupOf (loadEffect s)) (targetListeners s));
     loadEffect := None;
     clickEffect := None;
     effectRuns := effectRuns s;
     lastTarget := None;
     opens := opens s;
     targetGone := true |}.

(** A listener runs: [handleImgLoad] starts another decode (lines 210-222),
    [handleOpen] is called. *)
Definition runTargetHandler (h : TargetHandler) (s : TargetSide) : TargetSide :=
  match h with
  | HandleImgLoad _ pr =>
      {| loadedImgEl := loadedImgEl s; decodes := decodes s ++ [pr];
         targetListeners := targetListeners s; loadEffect := loadEffect s;
         clickEffect := clickEffect s; effectRuns := effectRuns s;
         lastTarget := lastTarget s; opens := opens s;
         targetGone := targetGone s |}
  | HandleOpen fn =>
      {| loadedImgEl := loadedImgEl s; decodes := decodes s;
         targetListeners := targetListeners s; loadEffect := loadEffect s;
         clickEffect := clickEffect s; effectRuns := effectRuns s;
         lastTarget := lastTarget s; opens := opens s ++ [fn];
         targetGone := targetGone s |}
  end.

(** Lines 219-221: a fulfilled decode stores its image. *)
Definition probeDecoded (i : nat) (settle : bool) (s : TargetSide) : TargetSide :=
  match decodes s !! i with
  | Some pr =>
      {| loadedImgEl := if settle then Some pr else loadedImgEl s;
         decodes := delete i (decodes s);
         targetListeners := targetListeners s; loadEffect := loadEffect s;
         clickEffect := clickEffect s; effectRuns := effectRuns s;
         lastTarget := lastTarget s; opens := opens s;
         targetGone := targetGone s |}
  | None => s
  end.

Inductive TargetEvent :=
  | TRender (el : option Resolved) (handleOpenFn : Fn)
  | TUnmount
  | TFire (id : nat) (ty : TargetEventType)   (* [load] or [click] on an element *)
  | TDecoded (i : nat)                        (* the [i]-th pending decode fulfils *)
  | TRejected (i : nat).

Definition targetStep (s : TargetSide) (e : TargetEvent) : TargetSide :=
  match e with
  | TRender el fn => if targetGone s then s else targetRender el fn s
  | TUnmount => if targetGone s then s else targetUnmount s
  | TFire id ty =>
      foldl (fun s h => runTargetHandler h s) s
        (tl_handler <$>
           filter (fun l => tl_el l = id ∧ tl_type l = ty) (targetListeners s))
  | TDecoded i => probeDecoded i true s
  | TRejected i => probeDecoded i false s
  end.

Definition targetRun (s : TargetSide) (es : list TargetEvent) : TargetSide :=
  foldl targetStep s es.

(** The listeners the clean-up functions in store would remove. *)
Definition owedListeners (s : TargetSide) : list TargetListener :=
  option_list (cleanupOf (loadEffect s)) ++ option_list (cleanupOf (clickEffect s)).

(** A render whose target has no usable source. *)
Definition sourceless (e : TargetEvent) : bool :=
  match e with
  | TRender el _ => negb (truthy (default JsUndefined (imgSrc <$> targetOf el)))
  | _ => true
  end.

(** The probes a run has asked for. *)
Definition requested (es : list TargetEvent) : list Probe :=
  omap (fun e => match e with
                 | TRender el _ =>
                     if truthy (default JsUndefined (imgSrc <$> targetOf el))
                     then Some (probeOf el) else None
                 | _ => None
                 end) es.

(** The clean-up functions in store name what is registered. *)
Definition settled (s : TargetSide) : Prop :=
  NoDup (targetListeners s) ∧
  (∀ l, l ∈ targetListeners s ↔ l ∈ owedListeners s) ∧
  (∀ l, cleanupOf (loadEffect s) = Some l → tl_type l = Load) ∧
  (∀ l, cleanupOf (clickEffect s) = Some l → tl_type l = ClickEv) ∧
  match lastTarget s with
  | Some (el, fn) =>
      clickEffect s
        = Some (clickDeps fn el, (fun e => clickListener e fn) <$> el) ∧
      ∃ k, loadEffect s
           = Some (loadDeps el,
                   if truthy (default JsUndefined (imgSrc <$> targetOf el))
                   then (fun e => loadListener e k (probeOf el)) <$> el
                   else None)
  | None => loadEffect s = None ∧ clickEffect s = None
  end.

(** The probes of a state all come from a list of requests. *)
Definition vouched (R : list Probe) (s : TargetSide) : Prop :=
  Forall (fun pr => pr ∈ R) (decodes s) ∧
  (∀ pr, loadedImgEl s = Some pr → pr ∈ R) ∧
  (∀ l k pr, l ∈ targetListeners s → tl_handler l = HandleImgLoad k pr → pr ∈ R).

(** An image target and a div without a source. *)
Definition portrait : Resolved := {| el_id := 3; el_target := photo |}.

Definition pane : Resolved :=
  {| el_id := 4;
     el_target := {| kind := KDiv; el_sizes := EmptyString; el_srcset := EmptyString;
                     imgAlt := JsUndefined; imgSrc := JsUndefined |} |}.

(** * Properties *)

(** ** The visual outputs *)

(** C7: for every lifecycle state, the content is visible exactly when the
    state is Unloaded and hidden in every other state; the overlay is hidden
    exactly in Unloaded and Unloading and visible exactly in Loading and
    Loaded. *)
Theorem visual_output_mapping (c : Comp) :
  (styleContent c = visible ↔ modalState c = UNLOADED) ∧
  (styleContent c = hidden ↔ modalState c ≠ UNLOADED) ∧
  (dataOverlayState c = hidden ↔
     modalState c = UNLOADED ∨ modalState c = UNLOADING) ∧
  (dataOverlayState c = visible ↔
     modalState c = LOADING ∨ modalState c = LOADED).
Proof.
  unfold styleContent, dataOverlayState.
  destruct (modalState c); simpl; intuition congruence.
Qed.

(** ** The attributes of the modal image *)

Lemma fixedImgAttrs_src id h w k :
  k = "src" ∨ k = "srcSet" ∨ k = "sizes" ∨ k = "alt" →
  fixedImgAttrs id h w !! k = None.
Proof.
  unfold fixedImgAttrs.
  intros [-> | [-> | [-> | ->]]]; by simplify_map_eq.
Qed.

Lemma spreadZoomImg_off p c :
  ¬ (isZoomImgLoaded c = true ∧ modalState c = LOADED) →
  spreadZoomImg p c = ∅.
Proof.
  unfold spreadZoomImg. intros H.
  destruct (isZoomImgLoaded c); simpl; [| done].
  case_bool_decide; [| done]. by destruct H.
Qed.

(** When both conditions hold, an attribute of [zoomImg] that the fixed
    props do not overwrite is the one rendered. *)
Lemma modalImgAttrs_replaced id h w p el c (z : Attrs) k v :
  isZoomImgLoaded c = true → modalState c = LOADED →
  zoomImg p = Some z → z !! k = Some v →
  fixedImgAttrs id h w !! k = None →
  modalImgAttrs id h w p el c !! k = Some v.
Proof.
  intros Hl Hm Hz Hk Hf. unfold modalImgAttrs, spreadZoomImg.
  rewrite Hl, Hm, Hz. simpl.
  rewrite lookup_union_r by done.
  by rewrite (lookup_union_Some_l _ _ _ _ Hk).
Qed.

Lemma modalImgElement_attrs id h w p el c a :
  modalImgElement id h w p el c = Some a ↔
  (testImg el || testDiv el = true) ∧ a = modalImgAttrs id h w p el c.
Proof.
  unfold modalImgElement. destruct (testImg el || testDiv el); naive_solver.
Qed.

(** A replacement that has decoded is rendered in Loaded, and not yet in
    Loading. *)
Lemma replacement_rendered_when_loaded :
  let p := plainProps true (Some 7) Window (Some big) in
  modalImgAttrs "m" JsUndefined JsUndefined p (Some photo)
    (step (opened Window (Some 7)) DecodeResolved) !! "src"
  = Some (JsString "big.png") ∧
  modalImgAttrs "m" JsUndefined JsUndefined p (Some photo)
    (run init [ Render (plainProps false (Some 7) Window (Some big)) (Some photo);
                Render p (Some photo); DecodeResolved ]) !! "src"
  = Some (JsString "small.png").
Proof. split; reflexivity. Qed.

(** C10: the attributes of [zoomImg] reach the modal image only when the
    replacement has decoded and the state is Loaded: an attribute that
    differs from the one the target alone would give implies both, and in
    every other combination the element is rendered from the target's own
    [src], [srcSet] and [sizes]. *)
Theorem zoomImg_attrs_only_when_loaded
    (id : string) (h w : JsValue) (p : BaseProps) (el : option Target) (c : Comp) :
  (∀ k, modalImgAttrs id h w p el c !! k
          ≠ (fixedImgAttrs id h w ∪ ownImgAttrs el) !! k →
        isZoomImgLoaded c = true ∧ modalState c = LOADED) ∧
  (¬ (isZoomImgLoaded c = true ∧ modalState c = LOADED) →
     modalImgAttrs id h w p el c = fixedImgAttrs id h w ∪ ownImgAttrs el ∧
     modalImgAttrs id h w p el c !! "src"
       = Some (default JsUndefined (imgSrc <$> el)) ∧
     modalImgAttrs id h w p el c !! "srcSet" = Some (imgSrcSet el) ∧
     modalImgAttrs id h w p el c !! "sizes" = Some (imgSizes el)).
Proof.
  assert (Hoff : ¬ (isZoomImgLoaded c = true ∧ modalState c = LOADED) →
                 modalImgAttrs id h w p el c
                 = fixedImgAttrs id h w ∪ ownImgAttrs el).
  { intros H. unfold modalImgAttrs.
    by rewrite (spreadZoomImg_off p c H), (left_id_L ∅ (∪)). }
  split.
  - intros k Hk.
    destruct (isZoomImgLoaded c) eqn:Hl, (decide (modalState c = LOADED)) as [Hm|Hm];
      try done; exfalso; apply Hk; rewrite Hoff; try done; intros [? ?]; done.
  - intros H. rewrite (Hoff H). split; [done |].
    unfold ownImgAttrs.
    repeat split; rewrite lookup_union_r by (apply fixedImgAttrs_src; auto);
      by simplify_map_eq.
Qed.

(** ** The edge detector *)

Lemma zoomEffect_edge c r p el :
  committed c = Some r →
  zoomEffect (committed c) (nextCommit p el c)
  = if negb (isZoomed (props r)) && isZoomed p then Some DoZoom
    else if isZoomed (props r) && negb (isZoomed p) then Some DoUnzoom
    else None.
Proof.
  intros Hr. rewrite Hr. unfold zoomEffect, zoomEffectBody, zoomEffectDeps.
  assert (Hp : prevIsZoomed (nextCommit p el c) = Some (isZoomed (props r))).
  { unfold nextCommit, usePrevious. by rewrite Hr. }
  rewrite Hp. change (props (nextCommit p el c)) with p. simpl.
  case_decide as Hd.
  - injection Hd as Hz _ _ _. rewrite <- Hz.
    by destruct (isZoomed (props r)).
  - done.
Qed.

Lemma step_render c p el :
  unmounted c = false →
  step c (Render p el)
  = perform (zoomEffect (committed c) (nextCommit p el c)) (nextCommit p el c)
      (lingeringEffect (committed c) (nextCommit p el c)
         (setCommitted (nextCommit p el c) (S (renders c)) c)).
Proof. intros H. simpl. by rewrite H. Qed.

Lemma lingeringEffect_frame last r c :
  modalState (lingeringEffect last r c) = modalState c ∧
  isZoomImgLoaded (lingeringEffect last r c) = isZoomImgLoaded c ∧
  forceUpdateVal (lingeringEffect last r c) = forceUpdateVal c ∧
  committed (lingeringEffect last r c) = committed c ∧
  unmounted (lingeringEffect last r c) = unmounted c ∧
  dialogOpen (lingeringEffect last r c) = dialogOpen c ∧
  modalImgOnce (lingeringEffect last r c) = modalImgOnce c ∧
  timers (lingeringEffect last r c) = timers c ∧
  decoding (lingeringEffect last r c) = decoding c ∧
  reported (lingeringEffect last r c) = reported c.
Proof.
  unfold lingeringEffect. destruct last as [r0|]; [| done].
  by case_decide.
Qed.

Lemma perform_modalState a r c :
  modalState (perform a r c)
  = match a with
    | Some DoZoom => LOADING
    | Some DoUnzoom => UNLOADING
    | None => modalState c
    end.
Proof.
  destruct a as [[|] |]; simpl; unfold zoom, unzoom, loadZoomImg;
    repeat case_match; done.
Qed.

Lemma zoom_edge_helper c r p el :
  committed c = Some r → unmounted c = false →
  (negb (isZoomed (props r)) && isZoomed p = true →
     modalState (step c (Render p el)) = LOADING) ∧
  (isZoomed (props r) && negb (isZoomed p) = true →
     modalState (step c (Render p el)) = UNLOADING).
Proof.
  intros Hr Hu.
  rewrite (step_render _ _ _ Hu), perform_modalState, (zoomEffect_edge _ _ _ _ Hr).
  destruct (isZoomed (props r)), (isZoomed p); simpl; by split.
Qed.

(** C9: on a render that follows another one, the effect runs [zoom]
    exactly when [isZoomed] went from false to true since the previous
    render and [unzoom] exactly when it went from true to false; with
    [isZoomed] unchanged it runs neither.  [zoom] opens the dialog, enters
    Loading and starts the replacement's decode when one is configured. *)
Theorem zoom_runs_on_toggle_edges
    (c : Comp) (r : Commit) (p : BaseProps) (el : option Target) :
  committed c = Some r →
  unmounted c = false →
  let a := zoomEffect (committed c) (nextCommit p el c) in
  let c' := step c (Render p el) in
  (a = Some DoZoom ↔ isZoomed (props r) = false ∧ isZoomed p = true) ∧
  (a = Some DoUnzoom ↔ isZoomed (props r) = true ∧ isZoomed p = false) ∧
  (isZoomed p = isZoomed (props r) →
     a = None ∧ modalState c' = modalState c ∧ decoding c' = decoding c ∧
     modalImgOnce c' = modalImgOnce c) ∧
  (a = Some DoZoom →
     modalState c' = LOADING ∧ dialogOpen c' = true ∧
     decoding c' = (if hasZoomImg p then S (decoding c) else decoding c)) ∧
  (a = Some DoUnzoom → modalState c' = UNLOADING).
Proof.
  intros Hr Hu a c'. subst a c'.
  rewrite (step_render _ _ _ Hu), (zoomEffect_edge _ _ _ _ Hr).
  pose proof (lingeringEffect_frame (committed c) (nextCommit p el c)
    (setCommitted (nextCommit p el c) (S (renders c)) c))
    as (Hm & _ & _ & _ & _ & _ & Ho & _ & Hd & _).
  destruct (isZoomed (props r)) eqn:Hz0, (isZoomed p) eqn:Hz; simpl;
    (split; [ intuition congruence |]);
    (split; [ intuition congruence |]);
    (split; [ intros Heq; try discriminate Heq; by rewrite ?Hm, ?Hd, ?Ho |]);
    (split; intros Ha; try discriminate Ha).
  - unfold unzoom. by destruct (hasModalImg (nextCommit p el c)).
  - unfold zoom, loadZoomImg, hasZoomImg.
    change (props (nextCommit p el c)) with p.
    destruct (truthy (zoomImgSrc p)), (hasModalImg (nextCommit p el c));
      simpl; by rewrite ?Hd.
Qed.

Lemma zoom_runs_on_toggle_edges_witness :
  let c := run init [Render (plainProps false (Some 7) Window (Some big)) (Some photo)] in
  modalState (step c (Render (plainProps true (Some 7) Window (Some big)) (Some photo)))
  = LOADING.
Proof.
  intros c.
  destruct (zoom_runs_on_toggle_edges c
              (nextCommit (plainProps false (Some 7) Window (Some big)) (Some photo) init)
              (plainProps true (Some 7) Window (Some big)) (Some photo)
              eq_refl eq_refl) as (Hz & _ & _ & Hl & _).
  apply Hl. apply Hz. split; reflexivity.
Defined.

(** ** What each event leaves alone *)

Lemma report_frame cb v c :
  modalState (report cb v c) = modalState c ∧
  isZoomImgLoaded (report cb v c) = isZoomImgLoaded c ∧
  forceUpdateVal (report cb v c) = forceUpdateVal c ∧
  committed (report cb v c) = committed c ∧
  unmounted (report cb v c) = unmounted c ∧
  listeners (report cb v c) = listeners c ∧
  modalImgOnce (report cb v c) = modalImgOnce c ∧
  timers (report cb v c) = timers c ∧
  decoding (report cb v c) = decoding c.
Proof. by destruct cb. Qed.

Lemma runHandlers_frame hs : ∀ c,
  let c' := foldl (fun c h => runHandler h c) c hs in
  modalState c' = modalState c ∧
  isZoomImgLoaded c' = isZoomImgLoaded c ∧
  committed c' = committed c ∧
  unmounted c' = unmounted c ∧
  listeners c' = listeners c ∧
  modalImgOnce c' = modalImgOnce c ∧
  timers c' = timers c ∧
  decoding c' = decoding c ∧
  forceUpdateVal c' = (forceUpdateVal c + Z.of_nat (length hs))%Z ∧
  reported c' = reported c ++ closeReports hs.
Proof.
  induction hs as [| h hs IH]; intros c; simpl.
  - repeat split; try done; [lia | by rewrite app_nil_r].
  - destruct (IH (runHandler h c)) as (H1 & H2 & H3 & H4 & H5 & H6 & H7 & H8 & H9 & H10).
    rewrite H1, H2, H3, H4, H5, H6, H7, H8, H9, H10.
    destruct h as [| fn [f |]]; simpl; repeat split; try done; try lia;
      by rewrite <- ?app_assoc.
Qed.

Lemma clicks_frame (fs : list (Comp -> Comp)) :
  Forall (fun f => ∃ cb v, f = report cb v) fs → ∀ c,
  let c' := foldl (fun c h => h c) c fs in
  modalState c' = modalState c ∧
  isZoomImgLoaded c' = isZoomImgLoaded c ∧
  forceUpdateVal c' = forceUpdateVal c ∧
  committed c' = committed c ∧
  unmounted c' = unmounted c ∧
  listeners c' = listeners c ∧
  modalImgOnce c' = modalImgOnce c ∧
  timers c' = timers c ∧
  decoding c' = decoding c.
Proof.
  induction 1 as [| f fs (cb & v & ->) _ IH]; intros c; simpl; [done |].
  destruct (IH (report cb v c)) as (H1 & H2 & H3 & H4 & H5 & H6 & H7 & H8 & H9).
  destruct (report_frame cb v c) as (G1 & G2 & G3 & G4 & G5 & G6 & G7 & G8 & G9).
  by rewrite H1, H2, H3, H4, H5, H6, H7, H8, H9.
Qed.

Lemma clickPath_reports r w :
  Forall (fun f => ∃ cb v, f = report cb v) (clickPath r w).
Proof.
  destruct w; simpl; repeat case_match;
    repeat constructor; unfold handleOpen, handleClose; eauto.
Qed.

Lemma runDeferred_frame d c :
  isZoomImgLoaded (runDeferred d c) = isZoomImgLoaded c ∧
  committed (runDeferred d c) = committed c ∧
  unmounted (runDeferred d c) = unmounted c ∧
  modalImgOnce (runDeferred d c) = modalImgOnce c ∧
  timers (runDeferred d c) = timers c ∧
  decoding (runDeferred d c) = decoding c ∧
  reported (runDeferred d c) = reported c ∧
  modalState (runDeferred d c)
    = match d with AfterZoom _ _ => LOADED | AfterUnzoom _ _ => UNLOADED end.
Proof.
  destruct d; unfold runDeferred, addEventListener, removeEventListener; simpl;
    repeat case_bool_decide; done.
Qed.

Lemma perform_frame a r c :
  isZoomImgLoaded (perform a r c) = isZoomImgLoaded c ∧
  forceUpdateVal (perform a r c) = forceUpdateVal c ∧
  committed (perform a r c) = committed c ∧
  unmounted (perform a r c) = unmounted c ∧
  listeners (perform a r c) = listeners c ∧
  timers (perform a r c) = timers c ∧
  reported (perform a r c) = reported c.
Proof.
  destruct a as [[|] |]; simpl; unfold zoom, unzoom, loadZoomImg;
    repeat case_match; done.
Qed.

Lemma unmount_frame c :
  modalState (unmount c) = modalState c ∧
  isZoomImgLoaded (unmount c) = isZoomImgLoaded c ∧
  committed (unmount c) = committed c ∧
  modalImgOnce (unmount c) = modalImgOnce c ∧
  timers (unmount c) = timers c ∧
  unmounted (unmount c) = true.
Proof. unfold unmount. destruct (committed c) eqn:E; simpl; by rewrite ?E. Qed.

(** ** Readiness of the replacement *)

Lemma isZoomImgLoaded_step c e :
  isZoomImgLoaded (step c e)
  = isZoomImgLoaded c ||
    match e with
    | DecodeResolved => bool_decide (0 < decoding c)
    | _ => false
    end.
Proof.
  destruct e; simpl; rewrite ?orb_false_r.
  - destruct (unmounted c); [done |]. unfold render.
    destruct (perform_frame (zoomEffect (committed c) (nextCommit p el c))
      (nextCommit p el c)
      (lingeringEffect (committed c) (nextCommit p el c)
         (setCommitted (nextCommit p el c) (S (renders c)) c))) as (-> & _).
    by destruct (lingeringEffect_frame (committed c) (nextCommit p el c)
      (setCommitted (nextCommit p el c) (S (renders c)) c)) as (_ & -> & _).
  - destruct (unmounted c); [done |]. by destruct (unmount_frame c) as (_ & -> & _).
  - by destruct (unmounted c).
  - destruct (timers c) as [| d ds]; [done |].
    by destruct (runDeferred_frame d (setTimers ds c)) as (-> & _).
  - destruct (decoding c); simpl; [by rewrite orb_false_r |].
    by rewrite orb_true_r.
  - done.
  - by destruct (runHandlers_frame (attached t ty c) c) as (_ & -> & _).
  - destruct (mountedCommit c) as [r |]; [| done].
    by destruct (clicks_frame _ (clickPath_reports r w) c) as (_ & -> & _).
  - destruct (mountedCommit c) as [r |]; [| done].
    unfold handleDialogKeyDown. destruct (isEscape e); [| done].
    simpl. unfold handleClose.
    by destruct (report_frame (onZoomChange (props r)) false c) as (_ & -> & _).
  - destruct (mountedCommit c) as [r |]; [| done]. unfold handleClose.
    by destruct (report_frame (onZoomChange (props r)) false c) as (_ & -> & _).
Qed.

Lemma readyFlips_once es : ∀ c,
  readyFlips c es ≤ 1 ∧ (isZoomImgLoaded c = true → readyFlips c es = 0).
Proof.
  induction es as [| e es IH]; intros c; simpl; [split; [lia | done] |].
  destruct (IH (step c e)) as [Hle Hz].
  destruct (isZoomImgLoaded c) eqn:Hc; simpl.
  - rewrite Hz; [split; [lia | done] |].
    by rewrite isZoomImgLoaded_step, Hc.
  - split; [| done].
    destruct (isZoomImgLoaded (step c e)); [rewrite Hz by done |]; lia.
Qed.

(** C3 (as the code has it): the readiness flag is written only by a
    fulfilled decode, which sets it; so it flips to ready at most once in
    any run, and the timer that completes Unloading→Unloaded leaves it as it
    was: it is never reset. *)
Theorem readiness_set_once_never_reset :
  (∀ c e, isZoomImgLoaded (step c e)
          = isZoomImgLoaded c ||
            match e with
            | DecodeResolved => bool_decide (0 < decoding c)
            | _ => false
            end) ∧
  (∀ c es, readyFlips c es ≤ 1) ∧
  (∀ c el hs ds, timers c = AfterUnzoom el hs :: ds →
     modalState (step c Timeout) = UNLOADED ∧
     isZoomImgLoaded (step c Timeout) = isZoomImgLoaded c).
Proof.
  split; [exact isZoomImgLoaded_step |].
  split; [intros c es; apply readyFlips_once |].
  intros c el hs ds Ht. rewrite isZoomImgLoaded_step, orb_false_r.
  split; [| done]. simpl. rewrite Ht.
  by destruct (runDeferred_frame (AfterUnzoom el hs) (setTimers ds c))
    as (_ & _ & _ & _ & _ & _ & _ & ->).
Qed.

(** C3 as stated fails: after a session whose replacement decoded, the
    timer that completes the unzoom leaves the flag set. *)
Lemma readiness_not_reset_by_unzoom :
  let c := run init (session Window (Some 7)) in
  modalState c = UNLOADING ∧
  modalState (step c Timeout) = UNLOADED ∧
  isZoomImgLoaded (step c Timeout) = true ∧
  ¬ (∀ c', modalState c' = UNLOADING →
           isZoomImgLoaded (step c' Timeout) = false).
Proof.
  intros c. repeat split; try reflexivity.
  intros H. specialize (H c eq_refl). discriminate H.
Qed.

(** ** Opening without a target *)

(** C4 (as the code has it): with no resolved target, a click where the
    target or the modal image would be reaches no handler, while the zoom
    button still runs [handleOpen]: the state stays as it is (Unloaded), and
    [onZoomChange] is called with true once when the owner passed one, and
    not at all when it passed none. *)
Theorem open_request_without_target (c : Comp) (r : Commit) :
  mountedCommit c = Some r →
  imgEl r = None →
  let c' := step c (Click OnZoomButton) in
  c' = report (onZoomChange (props r)) true c ∧
  modalState c' = modalState c ∧
  reported c'
    = reported c ++ match onZoomChange (props r) with
                    | Some f => [(f, true)]
                    | None => []
                    end ∧
  step c (Click OnTarget) = c ∧
  step c (Click OnModalImg) = c.
Proof.
  intros Hr Hel c'. subst c'. simpl. rewrite Hr. simpl.
  unfold hasModalImg, handleOpen. rewrite Hel. simpl.
  repeat split; try done.
  - by destruct (onZoomChange (props r)).
  - destruct (onZoomChange (props r)); simpl; [done | by rewrite app_nil_r].
Qed.

Lemma open_request_without_target_witness :
  modalState (step mountedBare (Click OnZoomButton)) = UNLOADED ∧
  reported (step mountedBare (Click OnZoomButton)) = [(7, true)].
Proof.
  destruct (open_request_without_target mountedBare
              (nextCommit (plainProps false (Some 7) Window None) None init)
              eq_refl eq_refl) as (_ & Hm & Hr & _).
  split; [exact Hm | exact Hr].
Defined.

(** C4 as stated fails: the target is absent, the state is Unloaded, and
    the open request calls [onZoomChange]. *)
Lemma open_request_reports_without_target :
  (imgEl <$> committed mountedBare) = Some None ∧
  modalState mountedBare = UNLOADED ∧
  reported mountedBare = [] ∧
  reported (step mountedBare (Click OnZoomButton)) = [(7, true)] ∧
  ¬ (∀ c r, mountedCommit c = Some r → imgEl r = None →
            reported (step c (Click OnZoomButton)) = reported c).
Proof.
  repeat split; try reflexivity.
  intros H.
  specialize (H mountedBare _ eq_refl eq_refl). discriminate H.
Qed.

(** ** Closing: Escape, overlay, button *)

(** C6 at its failing input: in Loaded, with an [onZoomChange] given, an
    Escape key press, a click on the overlay, a click on the modal image
    and the dialog's [close] event each call [onZoomChange] with false
    once, all without touching the lifecycle state.  A click on the unzoom
    button calls it twice: the button's own [onClick] (line 330) runs
    [handleClose], and so does the [onClick] of the dialog around it (line
    296), which the click reaches next.  This is so in every state of a
    mounted component: Escape, the overlay and the [close] event run
    [handleClose] once (the key handler prevents the default dismissal and
    stops the event), the unzoom button runs it twice. *)
Theorem unzoom_button_reports_twice :
  let c := opened Window (Some 7) in
  let esc := keyPress "Escape" 27 in
  (modalState c = LOADED ∧ reported c = [] ∧
   reported (step c (KeyDown esc)) = [(7, false)] ∧
   reported (step c (Click OnOverlay)) = [(7, false)] ∧
   reported (step c (Click OnModalImg)) = [(7, false)] ∧
   reported (step c DialogClose) = [(7, false)] ∧
   reported (step c (Click OnUnzoomButton)) = [(7, false); (7, false)] ∧
   modalState (step c (Click OnUnzoomButton)) = LOADED ∧
   step c (KeyDown esc) ≠ step c (Click OnUnzoomButton)) ∧
  (∀ (c : Comp) (r : Commit) (e : KeyboardEvent),
     mountedCommit c = Some r → isEscape e = true →
     step c (KeyDown e) = handleClose r c ∧
     step c (Click OnOverlay) = handleClose r c ∧
     step c DialogClose = handleClose r c ∧
     step c (Click OnUnzoomButton) = handleClose r (handleClose r c) ∧
     defaultPrevented (handleDialogKeyDown r e c).1 = true ∧
     propagationStopped (handleDialogKeyDown r e c).1 = true ∧
     ∀ f, onZoomChange (props r) = Some f →
       reported (step c (KeyDown e)) = reported c ++ [(f, false)] ∧
       reported (step c (Click OnUnzoomButton))
       = reported c ++ [(f, false); (f, false)]).
Proof.
  intros c esc. split.
  - repeat split; try reflexivity.
    intros H. apply (f_equal reported) in H. discriminate H.
  - clear c esc. intros c r e Hr He. simpl. rewrite Hr.
    unfold handleDialogKeyDown. rewrite He. simpl.
    repeat (split; [reflexivity |]).
    intros f Hf. unfold handleClose. rewrite Hf. simpl.
    split; [reflexivity |]. by rewrite <- app_assoc.
Qed.

(** ** Listeners *)

(** The two timer bodies mirror each other. *)
Lemma unzoom_removes_what_zoom_added el fn cb c :
  listeners c = [] →
  listeners (runDeferred (AfterUnzoom el (HandleScroll fn cb))
               (runDeferred (AfterZoom el (HandleScroll fn cb)) c)) = [].
Proof.
  intros Hl. unfold runDeferred, addEventListener, removeEventListener. simpl.
  rewrite Hl. simpl.
  rewrite bool_decide_eq_false_2 by (rewrite list_elem_of_singleton; intros [=]).
  simpl.
  repeat (first [rewrite filter_nil | rewrite filter_cons | case_decide];
          try done; try congruence).
Qed.

(** C2 at its failing input: with a [scrollableEl] other than the window, a
    component unmounted while Loaded keeps its scroll listener on that
    element, because the clean-up removes [handleScroll] from the window.
    The same run on the window leaves nothing, and a session that is closed
    before the unmount leaves nothing either. *)
Theorem unmount_leaves_scroll_listener :
  let c := opened (Element 1) (Some 7) in
  modalState c = LOADED ∧
  listeners c =
    [ {| l_target := Element 1; l_type := Scroll;
         l_handler := HandleScroll 1 (Some 7) |};
      {| l_target := Window; l_type := Resize; l_handler := HandleResize |} ] ∧
  listeners (step c Unmount) =
    [ {| l_target := Element 1; l_type := Scroll;
         l_handler := HandleScroll 1 (Some 7) |} ] ∧
  reported (run c [Unmount; Dispatch (Element 1) Scroll]) = [(7, false)] ∧
  listeners (step (opened Window (Some 7)) Unmount) = [] ∧
  listeners (run init (session (Element 1) (Some 7) ++ [Timeout; Unmount])) = [].
Proof. intros c. repeat split; reflexivity. Qed.

(** ** The cycle *)

Lemma onCycle_refl a : onCycle a a = true.
Proof. unfold onCycle. by rewrite bool_decide_eq_true_2. Qed.

Lemma coherent_ext c c' :
  modalState c' = modalState c → committed c' = committed c →
  timers c' = timers c → modalImgOnce c' = modalImgOnce c →
  coherent c → coherent c'.
Proof.
  unfold coherent, pending, lastIsZoomed. by intros -> -> -> ->.
Qed.

Lemma zoomEffect_toggle c p el :
  zoomEffect (committed c) (nextCommit p el c)
  = if negb (truthyB (lastIsZoomed c)) && isZoomed p then Some DoZoom
    else if truthyB (lastIsZoomed c) && negb (isZoomed p) then Some DoUnzoom
    else None.
Proof.
  unfold lastIsZoomed.
  destruct (committed c) as [r |] eqn:Hr.
  - rewrite <- Hr at 1. by rewrite (zoomEffect_edge c r p el Hr).
  - unfold zoomEffect, zoomEffectBody, nextCommit. by rewrite Hr.
Qed.

Lemma perform_pending a r c :
  pending (perform a r c)
  = pending c ++
    match a with
    | Some DoZoom =>
        if hasModalImg r
        then [AfterZoom (scrollableEl (props r)) (handleScroll r)] else []
    | Some DoUnzoom =>
        if hasModalImg r
        then [AfterUnzoom (scrollableEl (props r)) (handleScroll r)] else []
    | None => []
    end.
Proof.
  unfold pending.
  destruct a as [[|] |]; simpl; unfold zoom, unzoom, loadZoomImg;
    repeat case_match; simpl; by rewrite ?app_nil_r, ?app_assoc.
Qed.

Lemma render_summary c p el :
  unmounted c = false →
  let a := zoomEffect (committed c) (nextCommit p el c) in
  let c' := step c (Render p el) in
  lastIsZoomed c' = Some (isZoomed p) ∧
  modalState c'
    = match a with
      | Some DoZoom => LOADING
      | Some DoUnzoom => UNLOADING
      | None => modalState c
      end ∧
  pending c'
    = pending c ++
      match a with
      | Some DoZoom =>
          if hasModalImg (nextCommit p el c)
          then [AfterZoom (scrollableEl p) (handleScroll (nextCommit p el c))]
          else []
      | Some DoUnzoom =>
          if hasModalImg (nextCommit p el c)
          then [AfterUnzoom (scrollableEl p) (handleScroll (nextCommit p el c))]
          else []
      | None => []
      end.
Proof.
  intros Hu a c'. subst a c'. rewrite (step_render _ _ _ Hu).
  set (r := nextCommit p el c).
  set (c1 := setCommitted r (S (renders c)) c).
  destruct (lingeringEffect_frame (committed c) r c1)
    as (Hm & _ & _ & Hc & _ & _ & Ho & Ht & _).
  destruct (perform_frame (zoomEffect (committed c) r) r
              (lingeringEffect (committed c) r c1)) as (_ & _ & Hc' & _).
  split; [| split].
  - unfold lastIsZoomed. by rewrite Hc', Hc.
  - rewrite perform_modalState. by rewrite Hm.
  - rewrite perform_pending. unfold pending. by rewrite Ho, Ht.
Qed.

Lemma coherent_init : coherent init.
Proof. by split. Qed.

(** One calm step keeps the run coherent and keeps the state or moves it
    along the cycle. *)
Lemma coherent_step c e :
  coherent c → calm c e = true →
  coherent (step c e) ∧ onCycle (modalState c) (modalState (step c e)) = true.
Proof.
  intros Hc Hcalm.
  assert (Hsame : ∀ c', modalState c' = modalState c →
            committed c' = committed c → timers c' = timers c →
            modalImgOnce c' = modalImgOnce c →
            coherent c' ∧ onCycle (modalState c) (modalState c') = true).
  { intros c' Hm Hr Ht Ho. split; [by apply (coherent_ext c) |].
    rewrite Hm. apply onCycle_refl. }
  destruct e.
  - (* Render *)
    destruct (unmounted c) eqn:Hu; [simpl; rewrite Hu; by apply Hsame |].
    destruct (render_summary c p el Hu) as (Hz & Hm & Hp).
    rewrite zoomEffect_toggle in Hm, Hp.
    simpl in Hcalm. rewrite Hu in Hcalm. simpl in Hcalm.
    unfold coherent in *. rewrite Hz, Hm, Hp. clear Hz Hm Hp.
    unfold atRest in Hcalm.
    destruct (modalState c) eqn:Hs, (lastIsZoomed c) as [[|] |] eqn:Hl,
      (isZoomed p) eqn:Hi; simpl in *;
      try discriminate Hcalm; destruct Hc as [Hc1 Hc2];
      try discriminate Hc1;
      repeat match goal with
      | |- context [if ?b then _ else _] => destruct b
      end; rewrite ?Hc2, ?app_nil_r; simpl; eauto 8.
  - (* Unmount *)
    simpl. destruct (unmounted c); [by apply Hsame |].
    destruct (unmount_frame c) as (H1 & _ & H3 & H4 & H5 & _). by apply Hsame.
  - (* TransitionEnd *)
    simpl. destruct (unmounted c); [by apply Hsame |].
    split; [| apply onCycle_refl].
    unfold coherent, pending, lastIsZoomed in *. simpl. by rewrite app_nil_r.
  - (* Timeout *)
    simpl. destruct (timers c) as [| d ds] eqn:Ht; [by apply Hsame |].
    destruct (runDeferred_frame d (setTimers ds c))
      as (_ & Hr & _ & Ho & Ht' & _ & _ & Hm).
    unfold coherent, pending, lastIsZoomed in *.
    rewrite Hm, Hr, Ho, Ht'. rewrite Ht in Hc. simpl in *.
    destruct (modalState c), d; simpl;
      destruct Hc as [Hc1 Hc2]; try discriminate Hc2;
      destruct Hc2 as [Hc2 | (el' & hs' & Hc2)]; try discriminate Hc2;
      injection Hc2 as _ _ Hds; apply app_eq_nil in Hds as [-> ->];
      rewrite ?Hc1; by simpl.
  - (* DecodeResolved *)
    simpl. destruct (decoding c); by apply Hsame.
  - by apply Hsame.
  - (* Dispatch *)
    simpl. destruct (runHandlers_frame (attached t ty c) c)
      as (H1 & _ & H3 & _ & _ & H6 & H7 & _). by apply Hsame.
  - (* Click *)
    simpl. destruct (mountedCommit c) as [r |]; [| by apply Hsame].
    destruct (clicks_frame _ (clickPath_reports r w) c)
      as (H1 & _ & _ & H4 & _ & _ & H7 & H8 & _). by apply Hsame.
  - (* KeyDown *)
    simpl. destruct (mountedCommit c) as [r |]; [| by apply Hsame].
    unfold handleDialogKeyDown, handleClose.
    destruct (isEscape e); [| by apply Hsame]. simpl.
    destruct (report_frame (onZoomChange (props r)) false c)
      as (H1 & _ & _ & H4 & _ & _ & H7 & H8 & _). by apply Hsame.
  - (* DialogClose *)
    simpl. destruct (mountedCommit c) as [r |]; [| by apply Hsame].
    unfold handleClose.
    destruct (report_frame (onZoomChange (props r)) false c)
      as (H1 & _ & _ & H4 & _ & _ & H7 & H8 & _). by apply Hsame.
Qed.

Lemma calmRun_coherent es : ∀ c,
  coherent c → calmRun c es = true → coherent (run c es).
Proof.
  induction es as [| e es IH]; intros c Hc Hr; simpl in *; [done |].
  apply andb_prop in Hr as [He Hr].
  apply IH; [| done]. by apply coherent_step.
Qed.

Lemma calmRun_app c es e :
  calmRun c (es ++ [e]) = true →
  calmRun c es = true ∧ calm (run c es) e = true.
Proof.
  revert c. induction es as [| e' es IH]; intros c H; simpl in *.
  - apply andb_prop in H as [H _]. done.
  - apply andb_prop in H as [H1 H2]. destruct (IH _ H2) as [H3 H4].
    by rewrite H1, H3.
Qed.

(** C1 (as the code has it): in a run in which the owner changes
    [isZoomed] only while the state is Unloaded or Loaded, every step keeps
    the lifecycle state or moves it along
    Unloaded→Loading→Loaded→Unloading→Unloaded. *)
Theorem calm_run_follows_cycle (es : list Event) (e : Event) :
  calmRun init (es ++ [e]) = true →
  onCycle (modalState (run init es)) (modalState (step (run init es) e)) = true.
Proof.
  intros H. apply calmRun_app in H as [Hes He].
  apply (coherent_step (run init es) e); [| done].
  apply calmRun_coherent; [apply coherent_init | done].
Qed.

Lemma calm_run_follows_cycle_witness :
  onCycle
    (modalState (run init (session Window (Some 7))))
    (modalState (step (run init (session Window (Some 7))) Timeout)) = true.
Proof.
  exact (calm_run_follows_cycle (session Window (Some 7)) Timeout eq_refl).
Defined.

(** C1 as stated fails: lowering [isZoomed] while Loading goes straight to
    Unloading, and raising it again goes straight back to Loading. *)
Lemma reversal_leaves_cycle :
  let up := Render (plainProps true (Some 7) Window None) (Some photo) in
  let down := Render (plainProps false (Some 7) Window None) (Some photo) in
  modalState (run init [up]) = LOADING ∧
  modalState (run init [up; down]) = UNLOADING ∧
  modalState (run init [up; down; up]) = LOADING ∧
  ¬ (∀ es e, onCycle (modalState (run init es))
                     (modalState (step (run init es) e)) = true).
Proof.
  intros up down. repeat split; try reflexivity.
  intros H. specialize (H [up] down). discriminate H.
Qed.

(** ** The expanded box *)

Lemma expandedScale_nonneg g m : (0 <= expandedScale g m)%Q.
Proof. unfold expandedScale. apply Q.le_max_l. Qed.

Lemma expandedScale_le_width g m :
  (0 <= s_width (natural g))%Q → (0 < box_width (targetRect g))%Q →
  (expandedScale g m * box_width (targetRect g) <= s_width (natural g))%Q.
Proof.
  intros Hn Ht. unfold expandedScale.
  set (tw := box_width (targetRect g)) in *.
  set (nw := s_width (natural g)) in *.
  assert (Hq : (0 <= nw / tw)%Q).
  { apply Qle_shift_div_l; [done |]. by rewrite Qmult_0_l. }
  apply Qle_trans with ((nw / tw) * tw)%Q.
  - apply Qmult_le_compat_r; [| by apply Qlt_le_weak].
    apply Q.max_lub; [done |].
    eapply Qle_trans; [apply Q.le_min_r | apply Q.le_min_l].
  - rewrite Qmult_comm, Qmult_div_r; [apply Qle_refl |].
    intros H. rewrite H in Ht. by apply Qlt_irrefl in Ht.
Qed.

Lemma expandedScale_le_height g m :
  (0 <= s_height (natural g))%Q → (0 < box_height (targetRect g))%Q →
  (expandedScale g m * box_height (targetRect g) <= s_height (natural g))%Q.
Proof.
  intros Hn Ht. unfold expandedScale.
  set (th := box_height (targetRect g)) in *.
  set (nh := s_height (natural g)) in *.
  assert (Hq : (0 <= nh / th)%Q).
  { apply Qle_shift_div_l; [done |]. by rewrite Qmult_0_l. }
  apply Qle_trans with ((nh / th) * th)%Q.
  - apply Qmult_le_compat_r; [| by apply Qlt_le_weak].
    apply Q.max_lub; [done |].
    eapply Qle_trans; [apply Q.le_min_r | apply Q.le_min_r].
  - rewrite Qmult_comm, Qmult_div_r; [apply Qle_refl |].
    intros H. rewrite H in Ht. by apply Qlt_irrefl in Ht.
Qed.

(** C8: for every margin (so for every margin ≥ 0) and every viewport, the
    expanded box is no wider and no taller than the natural resolution of
    the active asset, has non-negative sides, and has the target's aspect
    ratio; a 200×150 target with no replacement in a 2000×2000 viewport with
    margin 0 gets a 200×150 box. *)
Theorem expanded_box_within_natural (g : Layout) (margin : Q) :
  (0 <= margin)%Q →
  (0 <= s_width (natural g))%Q → (0 <= s_height (natural g))%Q →
  (0 <= box_width (targetRect g))%Q → (0 <= box_height (targetRect g))%Q →
  let b := computeBox g Expanded margin in
  ((box_width b <= s_width (natural g))%Q ∧
   (box_height b <= s_height (natural g))%Q ∧
   (0 <= box_width b)%Q ∧ (0 <= box_height b)%Q ∧
   (box_width b * box_height (targetRect g)
    == box_height b * box_width (targetRect g))%Q) ∧
  (box_width (computeBox thumbnail Expanded 0) == 200)%Q ∧
  (box_height (computeBox thumbnail Expanded 0) == 150)%Q.
Proof.
  intros _ Hnw Hnh Htw Hth b. subst b. split; [| split; reflexivity].
  unfold computeBox. cbv zeta. cbn [box_width box_height].
  destruct (Qeq_bool (box_width (targetRect g)) 0) eqn:Ew;
    [| destruct (Qeq_bool (box_height (targetRect g)) 0) eqn:Eh]; simpl.
  1, 2: rewrite !Qmult_0_l; repeat split; try done; apply Qle_refl.
  apply Qeq_bool_neq in Ew, Eh.
  assert (Hw : (0 < box_width (targetRect g))%Q).
  { apply Qle_lteq in Htw as [H | H]; [done | by symmetry in H]. }
  assert (Hh : (0 < box_height (targetRect g))%Q).
  { apply Qle_lteq in Hth as [H | H]; [done | by symmetry in H]. }
  pose proof (expandedScale_nonneg g margin) as Hk.
  split; [by apply expandedScale_le_width |].
  split; [by apply expandedScale_le_height |].
  split; [by apply Qmult_le_0_compat |].
  split; [by apply Qmult_le_0_compat |].
  ring.
Qed.

Lemma expanded_box_within_natural_witness :
  (box_width (computeBox thumbnail Expanded 0) <= 200)%Q.
Proof.
  assert (Hm : (0 <= 0)%Q) by (unfold Qle; simpl; lia).
  assert (H2 : (0 <= 200)%Q) by (unfold Qle; simpl; lia).
  assert (H1 : (0 <= 150)%Q) by (unfold Qle; simpl; lia).
  exact (proj1 (proj1 (expanded_box_within_natural thumbnail 0 Hm H2 H1 H2 H1))).
Defined.

(** The model gives the box of the spec's other scenario: 960×720 at
    left 20, top 40. *)
Lemma poster_box :
  let b := computeBox poster Expanded 20 in
  (box_width b == 960)%Q ∧ (box_height b == 720)%Q ∧
  (box_left b == 20)%Q ∧ (box_top b == 40)%Q.
Proof. repeat split; reflexivity. Qed.

(** The call site asks for the expanded box exactly while [isModalZoomed],
    with [zoomMargin] as the margin. *)
Lemma styleModalImg_expanded p el loaded g c b :
  styleModalImg p el loaded g c = Some b →
  isModalZoomed p c = true →
  b = computeBox g Expanded (zoomMargin p).
Proof.
  unfold styleModalImg. intros H Hz. rewrite Hz in H.
  case_match; by simplify_eq.
Qed.

(** * Further properties of the component *)

(** ** What the handlers of DOM events write *)

Lemma report_dialogOpen cb v c :
  dialogOpen (report cb v c) = dialogOpen c ∧ renders (report cb v c) = renders c.
Proof. by destruct cb. Qed.

Lemma runHandlers_dialogOpen hs : ∀ c,
  dialogOpen (foldl (fun c h => runHandler h c) c hs) = dialogOpen c ∧
  renders (foldl (fun c h => runHandler h c) c hs) = renders c.
Proof.
  induction hs as [| h hs IH]; intros c; simpl; [done |].
  destruct (IH (runHandler h c)) as [-> ->].
  by destruct h as [| fn [f |]].
Qed.

Lemma clicks_dialogOpen (fs : list (Comp -> Comp)) :
  Forall (fun f => ∃ cb v, f = report cb v) fs → ∀ c,
  dialogOpen (foldl (fun c h => h c) c fs) = dialogOpen c ∧
  renders (foldl (fun c h => h c) c fs) = renders c.
Proof.
  induction 1 as [| f fs (cb & v & ->) _ IH]; intros c; simpl; [done |].
  destruct (IH (report cb v c)) as [-> ->]. apply report_dialogOpen.
Qed.

Lemma input_frame (c : Comp) (e : Event) :
  isInput e = true →
  let c' := step c e in
  modalState c' = modalState c ∧
  isZoomImgLoaded c' = isZoomImgLoaded c ∧
  committed c' = committed c ∧
  unmounted c' = unmounted c ∧
  dialogOpen c' = dialogOpen c ∧
  listeners c' = listeners c ∧
  modalImgOnce c' = modalImgOnce c ∧
  timers c' = timers c ∧
  decoding c' = decoding c.
Proof.
  intros He c'. subst c'. destruct e; try discriminate He; simpl.
  - destruct (runHandlers_frame (attached t ty c) c)
      as (H1 & H2 & H3 & H4 & H5 & H6 & H7 & H8 & _).
    destruct (runHandlers_dialogOpen (attached t ty c) c) as [H9 _].
    done.
  - destruct (mountedCommit c) as [r |]; [| done].
    destruct (clicks_frame _ (clickPath_reports r w) c)
      as (H1 & H2 & _ & H4 & H5 & H6 & H7 & H8 & H9).
    destruct (clicks_dialogOpen _ (clickPath_reports r w) c) as [H10 _].
    done.
  - destruct (mountedCommit c) as [r |]; [| done].
    unfold handleDialogKeyDown, handleClose. destruct (isEscape e); [| done].
    simpl.
    destruct (report_frame (onZoomChange (props r)) false c)
      as (H1 & H2 & _ & H4 & H5 & H6 & H7 & H8 & H9).
    destruct (report_dialogOpen (onZoomChange (props r)) false c) as [H10 _].
    done.
  - destruct (mountedCommit c) as [r |]; [| done]. unfold handleClose.
    destruct (report_frame (onZoomChange (props r)) false c)
      as (H1 & H2 & _ & H4 & H5 & H6 & H7 & H8 & H9).
    destruct (report_dialogOpen (onZoomChange (props r)) false c) as [H10 _].
    done.
Qed.

(** The handlers of clicks, key presses, the dialog's [close], scroll and
    resize write nothing but the refresh counter and the calls to
    [onZoomChange]: the lifecycle state, the readiness flag, the dialog, the
    listeners and the waiting callbacks are as before. *)
Theorem input_handlers_only_report (c : Comp) (e : Event) :
  isInput e = true →
  let c' := step c e in
  modalState c' = modalState c ∧
  isZoomImgLoaded c' = isZoomImgLoaded c ∧
  committed c' = committed c ∧
  unmounted c' = unmounted c ∧
  dialogOpen c' = dialogOpen c ∧
  listeners c' = listeners c ∧
  modalImgOnce c' = modalImgOnce c ∧
  timers c' = timers c ∧
  decoding c' = decoding c.
Proof. apply input_frame. Qed.

Lemma input_handlers_only_report_witness :
  modalState (step (opened Window (Some 7)) (Click OnUnzoomButton)) = LOADED.
Proof.
  exact (proj1 (input_handlers_only_report (opened Window (Some 7))
                  (Click OnUnzoomButton) eq_refl)).
Defined.

(** ** Who calls [onZoomChange] *)

Lemma closeReports_false hs f v : (f, v) ∈ closeReports hs → v = false.
Proof.
  unfold closeReports. rewrite list_elem_of_omap.
  intros (h & _ & Hh). destruct h as [| fn [g |]]; by simplify_eq.
Qed.

Lemma clicks_reported (fs : list (Comp -> Comp)) (v : bool) :
  Forall (fun f => ∃ cb, f = report cb v) fs → ∀ c,
  ∃ l, reported (foldl (fun c h => h c) c fs) = reported c ++ l ∧
       ∀ x, x ∈ l → x.2 = v.
Proof.
  induction 1 as [| f fs (cb & ->) _ IH]; intros c; simpl.
  - exists []. split; [by rewrite app_nil_r | by intros x ?%elem_of_nil].
  - destruct (IH (report cb v c)) as (l & -> & Hl).
    destruct cb as [g |]; simpl.
    + exists ((g, v) :: l). split; [by rewrite <- app_assoc |].
      intros x [-> | Hx]%elem_of_cons; [done | by apply Hl].
    + by exists l.
Qed.

(** [onZoomChange] is called only while a click, a key press, the dialog's
    [close] or a registered scroll listener is handled; a render, an
    unmount, a timer, a [transitionend] and a settled decode never call it.
    The value true is passed only by a click on the target or on the zoom
    button; every other call passes false. *)
Theorem reports_come_from_input (c : Comp) (e : Event) :
  ∃ l, reported (step c e) = reported c ++ l ∧
       (isInput e = false → l = []) ∧
       (∀ f, (f, true) ∈ l → e = Click OnTarget ∨ e = Click OnZoomButton).
Proof.
  destruct e; simpl.
  - exists []. rewrite app_nil_r. split; [| split; [done | by intros f ?%elem_of_nil]].
    destruct (unmounted c); [done |]. unfold render.
    destruct (perform_frame (zoomEffect (committed c) (nextCommit p el c))
      (nextCommit p el c)
      (lingeringEffect (committed c) (nextCommit p el c)
         (setCommitted (nextCommit p el c) (S (renders c)) c)))
      as (_ & _ & _ & _ & _ & _ & ->).
    by destruct (lingeringEffect_frame (committed c) (nextCommit p el c)
      (setCommitted (nextCommit p el c) (S (renders c)) c))
      as (_ & _ & _ & _ & _ & _ & _ & _ & _ & ->).
  - exists []. rewrite app_nil_r. split; [| split; [done | by intros f ?%elem_of_nil]].
    destruct (unmounted c); [done |]. unfold unmount, cleanupLingering.
    by destruct (committed c).
  - exists []. rewrite app_nil_r. split; [| split; [done | by intros f ?%elem_of_nil]].
    by destruct (unmounted c).
  - exists []. rewrite app_nil_r. split; [| split; [done | by intros f ?%elem_of_nil]].
    destruct (timers c) as [| d ds]; [done |].
    by destruct (runDeferred_frame d (setTimers ds c))
      as (_ & _ & _ & _ & _ & _ & -> & _).
  - exists []. rewrite app_nil_r. split; [| split; [done | by intros f ?%elem_of_nil]].
    by destruct (decoding c).
  - exists []. rewrite app_nil_r. split; [| split; [done | by intros f ?%elem_of_nil]].
    done.
  - exists (closeReports (attached t ty c)).
    destruct (runHandlers_frame (attached t ty c) c)
      as (_ & _ & _ & _ & _ & _ & _ & _ & _ & ->).
    split; [done |]. split; [done |].
    by intros f ?%closeReports_false.
  - destruct (mountedCommit c) as [r |].
    + assert (Hopen : Forall (fun f => ∃ cb, f = report cb true) [handleOpen r])
        by (repeat constructor; unfold handleOpen; eauto).
      assert (Hc1 : Forall (fun f => ∃ cb, f = report cb false) [handleClose r])
        by (repeat constructor; unfold handleClose; eauto).
      assert (Hc2 : Forall (fun f => ∃ cb, f = report cb false)
                      [handleClose r; handleClose r])
        by (repeat constructor; unfold handleClose; eauto).
      destruct w; simpl.
      * destruct (imgEl r).
        -- destruct (clicks_reported _ true Hopen c) as (l & Hl & _).
           exists l. split; [done |]. split; [done | auto].
        -- exists []. rewrite app_nil_r. split; [done |]. split; [done | auto].
      * destruct (clicks_reported _ true Hopen c) as (l & Hl & _).
        exists l. split; [done |]. split; [done | auto].
      * destruct (clicks_reported _ false Hc1 c) as (l & Hl & Hv).
        exists l. split; [done |]. split; [done |].
        intros f Hf. by apply Hv in Hf.
      * destruct (hasModalImg r).
        -- destruct (clicks_reported _ false Hc1 c) as (l & Hl & Hv).
           exists l. split; [done |]. split; [done |].
           intros f Hf. by apply Hv in Hf.
        -- exists []. rewrite app_nil_r. split; [done |]. split; [done |].
           by intros f ?%elem_of_nil.
      * destruct (clicks_reported _ false Hc2 c) as (l & Hl & Hv).
        exists l. split; [done |]. split; [done |].
        intros f Hf. by apply Hv in Hf.
    + exists []. rewrite app_nil_r. split; [done |]. split; [done |].
      by intros f ?%elem_of_nil.
  - destruct (mountedCommit c) as [r |].
    + unfold handleDialogKeyDown, handleClose. destruct (isEscape e); simpl.
      * destruct (onZoomChange (props r)) as [g |]; simpl.
        -- exists [(g, false)]. split; [done |]. split; [done |].
           by intros f [[=] | ?%elem_of_nil]%elem_of_cons.
        -- exists []. rewrite app_nil_r. split; [done |]. split; [done |].
           by intros f ?%elem_of_nil.
      * exists []. rewrite app_nil_r. split; [done |]. split; [done |].
        by intros f ?%elem_of_nil.
    + exists []. rewrite app_nil_r. split; [done |]. split; [done |].
      by intros f ?%elem_of_nil.
  - destruct (mountedCommit c) as [r |].
    + unfold handleClose.
      destruct (onZoomChange (props r)) as [g |]; simpl.
      * exists [(g, false)]. split; [done |]. split; [done |].
        by intros f [[=] | ?%elem_of_nil]%elem_of_cons.
      * exists []. rewrite app_nil_r. split; [done |]. split; [done |].
        by intros f ?%elem_of_nil.
    + exists []. rewrite app_nil_r. split; [done |]. split; [done |].
      by intros f ?%elem_of_nil.
Qed.

(** ** Renders *)

(** While the owner passes the same [onZoomChange], [handleClose] and
    [handleScroll] stay the same function objects. *)
Lemma nextCommit_same_callback c r p el :
  committed c = Some r → onZoomChange p = onZoomChange (props r) →
  handleCloseFn (nextCommit p el c) = handleCloseFn r ∧
  handleScrollFn (nextCommit p el c) = handleScrollFn r ∧
  handleScroll (nextCommit p el c) = handleScroll r.
Proof.
  intros Hr Hcb. unfold handleScroll, nextCommit, useCallback. rewrite Hr. simpl.
  rewrite Hcb. rewrite !decide_True by done. done.
Qed.

Lemma render_listeners c p el :
  unmounted c = false →
  listeners (step c (Render p el))
  = listeners (lingeringEffect (committed c) (nextCommit p el c) c).
Proof.
  intros Hu. rewrite (step_render _ _ _ Hu).
  destruct (perform_frame (zoomEffect (committed c) (nextCommit p el c))
    (nextCommit p el c)
    (lingeringEffect (committed c) (nextCommit p el c)
       (setCommitted (nextCommit p el c) (S (renders c)) c)))
    as (_ & _ & _ & _ & -> & _).
  unfold lingeringEffect. destruct (committed c); [| done]. by case_decide.
Qed.

(** A render that passes the same [onZoomChange] as the one before keeps
    [handleClose] and [handleScroll] the function objects they were and
    leaves every registered listener in place, whatever else changed in the
    props: the clean-up of lines 252-257 does not run.  The [unzoom] of
    that render then queues the removal of that same [handleScroll], from
    the [scrollableEl] of the new props. *)
Theorem same_callback_keeps_listeners
    (c : Comp) (r : Commit) (p : BaseProps) (el : option Target) :
  committed c = Some r →
  unmounted c = false →
  onZoomChange p = onZoomChange (props r) →
  listeners (step c (Render p el)) = listeners c ∧
  handleCloseFn (nextCommit p el c) = handleCloseFn r ∧
  handleScrollFn (nextCommit p el c) = handleScrollFn r ∧
  handleScroll (nextCommit p el c) = handleScroll r ∧
  (∀ c2, hasModalImg (nextCommit p el c) = true →
     modalImgOnce (unzoom (nextCommit p el c) c2)
     = modalImgOnce c2 ++ [AfterUnzoom (scrollableEl p) (handleScroll r)]).
Proof.
  intros Hr Hu Hcb.
  destruct (nextCommit_same_callback c r p el Hr Hcb) as (Hc & Hs & Hh).
  split; [| split; [done | split; [done | split; [done |]]]].
  - rewrite (render_listeners _ _ _ Hu), Hr. unfold lingeringEffect.
    by rewrite decide_True.
  - intros c2 Hi. unfold unzoom. rewrite Hi, Hh. reflexivity.
Qed.

Lemma same_callback_keeps_listeners_witness :
  listeners (step (opened (Element 1) (Some 7))
               (Render (plainProps true (Some 7) Window None) None))
  = listeners (opened (Element 1) (Some 7)).
Proof.
  exact (proj1 (same_callback_keeps_listeners (opened (Element 1) (Some 7))
    (nextCommit (plainProps true (Some 7) (Element 1) (Some big)) (Some photo)
       (run init [Render (plainProps false (Some 7) (Element 1) (Some big))
                    (Some photo)]))
    (plainProps true (Some 7) Window None) None eq_refl eq_refl eq_refl)).
Defined.

(** A render with the props and the target of the previous one (such as the
    render a state setter causes) changes no state cell, no listener, no
    waiting callback, no pending decode and calls nothing; the memoised
    callbacks keep their identities. *)
Theorem rerender_is_idle (c : Comp) (r : Commit) :
  committed c = Some r →
  unmounted c = false →
  let c' := step c (Render (props r) (imgEl r)) in
  modalState c' = modalState c ∧
  isZoomImgLoaded c' = isZoomImgLoaded c ∧
  forceUpdateVal c' = forceUpdateVal c ∧
  dialogOpen c' = dialogOpen c ∧
  listeners c' = listeners c ∧
  modalImgOnce c' = modalImgOnce c ∧
  timers c' = timers c ∧
  decoding c' = decoding c ∧
  reported c' = reported c ∧
  (∃ r', committed c' = Some r' ∧ props r' = props r ∧ imgEl r' = imgEl r ∧
         handleOpenFn r' = handleOpenFn r ∧ handleCloseFn r' = handleCloseFn r ∧
         handleScrollFn r' = handleScrollFn r ∧
         loadZoomImgFn r' = loadZoomImgFn r ∧
         zoomFn r' = zoomFn r ∧ unzoomFn r' = unzoomFn r).
Proof.
  intros Hr Hu c'. subst c'.
  rewrite (step_render _ _ _ Hu), (zoomEffect_edge _ _ _ _ Hr).
  assert (Hn : negb (isZoomed (props r)) && isZoomed (props r) = false)
    by (by destruct (isZoomed (props r))).
  assert (Hn' : isZoomed (props r) && negb (isZoomed (props r)) = false)
    by (by destruct (isZoomed (props r))).
  rewrite Hn, Hn'. simpl.
  destruct (nextCommit_same_callback c r (props r) (imgEl r) Hr eq_refl)
    as (Hc & Hs & _).
  unfold lingeringEffect. rewrite Hr. rewrite decide_True by done. simpl.
  repeat (split; [done |]).
  eexists. split; [done |].
  unfold nextCommit, useCallback. rewrite Hr. simpl.
  rewrite !decide_True by done. done.
Qed.

Lemma rerender_is_idle_witness :
  let c := opened Window (Some 7) in
  listeners (step c (Render (plainProps true (Some 7) Window (Some big)) (Some photo)))
  = listeners c.
Proof.
  intros c.
  destruct (rerender_is_idle c
    (nextCommit (plainProps true (Some 7) Window (Some big)) (Some photo)
       (run init [Render (plainProps false (Some 7) Window (Some big))
                    (Some photo)]))
    eq_refl eq_refl) as (_ & _ & _ & _ & Hl & _).
  exact Hl.
Defined.

(** ** Function identities are fresh *)

Lemma committed_renders_step c e :
  isRender e = false →
  committed (step c e) = committed c ∧ renders (step c e) = renders c.
Proof.
  intros He. destruct e; try discriminate He; simpl.
  - destruct (unmounted c); [done |]. unfold unmount, cleanupLingering.
    destruct (committed c) eqn:E; simpl; by rewrite ?E.
  - by destruct (unmounted c).
  - destruct (timers c) as [| d ds]; [done |].
    destruct d; unfold runDeferred, addEventListener, removeEventListener;
      simpl; repeat case_bool_decide; done.
  - by destruct (decoding c).
  - done.
  - destruct (runHandlers_frame (attached t ty c) c) as (_ & _ & -> & _).
    by destruct (runHandlers_dialogOpen (attached t ty c) c) as [_ ->].
  - destruct (mountedCommit c) as [r |]; [| done].
    destruct (clicks_frame _ (clickPath_reports r w) c) as (_ & _ & _ & -> & _).
    by destruct (clicks_dialogOpen _ (clickPath_reports r w) c) as [_ ->].
  - destruct (mountedCommit c) as [r |]; [| done].
    unfold handleDialogKeyDown, handleClose. destruct (isEscape e); [| done].
    simpl.
    destruct (report_frame (onZoomChange (props r)) false c) as (_ & _ & _ & -> & _).
    by destruct (report_dialogOpen (onZoomChange (props r)) false c) as [_ ->].
  - destruct (mountedCommit c) as [r |]; [| done]. unfold handleClose.
    destruct (report_frame (onZoomChange (props r)) false c) as (_ & _ & _ & -> & _).
    by destruct (report_dialogOpen (onZoomChange (props r)) false c) as [_ ->].
Qed.

Lemma render_committed c p el :
  unmounted c = false →
  committed (step c (Render p el)) = Some (nextCommit p el c) ∧
  renders (step c (Render p el)) = S (renders c).
Proof.
  intros Hu. rewrite (step_render _ _ _ Hu).
  unfold perform, zoom, unzoom, loadZoomImg, lingeringEffect, cleanupLingering,
    removeEventListener.
  repeat case_match; done.
Qed.

Lemma fnsBounded_step c e : fnsBounded c → fnsBounded (step c e).
Proof.
  intros Hb. destruct (isRender e) eqn:He.
  - destruct e; try discriminate He.
    destruct (unmounted c) eqn:Hu; [simpl; by rewrite Hu |].
    destruct (render_committed c p el Hu) as [Hc Hn].
    intros r'. rewrite Hc, Hn. intros [= <-].
    unfold nextCommit, useCallback. simpl.
    destruct (committed c) as [r |] eqn:Hr; simpl; [| lia].
    destruct (Hb r Hr) as [H1 H2].
    repeat case_decide; lia.
  - destruct (committed_renders_step c e He) as [Hc Hn].
    intros r. rewrite Hc, Hn. apply Hb.
Qed.

Lemma fnsBounded_run es : ∀ c, fnsBounded c → fnsBounded (run c es).
Proof.
  induction es as [| e es IH]; intros c Hb; simpl; [done |].
  apply IH. by apply fnsBounded_step.
Qed.

Lemma filter_ne_not_elem (l : Listener) (ls : list Listener) :
  l ∉ filter (fun x => x ≠ l) ls.
Proof. rewrite list_elem_of_filter. by intros [? ?]. Qed.

(** In every state the component can reach, a render in which the owner
    passes another [onZoomChange] function makes [handleScroll] a new
    function, so the clean-up of lines 253-256 runs: the resize listener and
    the previous scroll listener are taken off the window, whatever the
    lifecycle state is, and no listener is added. *)
Theorem new_callback_drops_window_listeners
    (es : list Event) (r : Commit) (p : BaseProps) (el : option Target) :
  committed (run init es) = Some r →
  unmounted (run init es) = false →
  onZoomChange p ≠ onZoomChange (props r) →
  let c' := step (run init es) (Render p el) in
  (resizeListener ∉ listeners c') ∧
  (scrollListener Window (handleScroll r) ∉ listeners c') ∧
  (∀ l, l ∈ listeners c' → l ∈ listeners (run init es)) ∧
  handleScrollFn (nextCommit p el (run init es)) ≠ handleScrollFn r.
Proof.
  intros Hr Hu Hcb c'. subst c'.
  set (c := run init es) in *.
  assert (Hb : fnsBounded c).
  { apply fnsBounded_run. intros r0 [=]. }
  destruct (Hb r Hr) as [H1 H2].
  assert (Hfn : handleScrollFn (nextCommit p el c) ≠ handleScrollFn r).
  { unfold nextCommit, useCallback. rewrite Hr. simpl.
    rewrite (decide_False (P := onZoomChange p = onZoomChange (props r))) by done.
    rewrite decide_False by lia. lia. }
  rewrite (render_listeners _ _ _ Hu), Hr. unfold lingeringEffect.
  rewrite decide_False by (intros E; by apply Hfn).
  unfold cleanupLingering, removeEventListener. simpl.
  split; [| split; [| split; [| done]]].
  - rewrite list_elem_of_filter. intros [_ H].
    by apply filter_ne_not_elem in H.
  - apply filter_ne_not_elem.
  - intros l. rewrite !list_elem_of_filter. tauto.
Qed.

Lemma new_callback_drops_window_listeners_witness :
  resizeListener ∉
    listeners (step (opened Window (Some 7))
                 (Render (plainProps true (Some 8) Window (Some big)) (Some photo))).
Proof.
  exact (proj1 (new_callback_drops_window_listeners
    [ Render (plainProps false (Some 7) Window (Some big)) (Some photo);
      Render (plainProps true (Some 7) Window (Some big)) (Some photo);
      TransitionEnd; Timeout ]
    (nextCommit (plainProps true (Some 7) Window (Some big)) (Some photo)
       (run init [Render (plainProps false (Some 7) Window (Some big))
                    (Some photo)]))
    (plainProps true (Some 8) Window (Some big)) (Some photo)
    eq_refl eq_refl ltac:(intros [=]))).
Defined.

(** ** Precedence among the props of the modal image *)

(** The props written after the spread always win, so [zoomImg] cannot
    replace the element's [id], [width], [height], [style], [ref] or
    [data-rmiz-modal-img]; and when the replacement is spread, a key it does
    not have keeps the target's own value: a [zoomImg] with only a [src]
    leaves the target's [srcSet] and [sizes] on the element. *)
Theorem modal_img_prop_precedence
    (id : string) (h w : JsValue) (p : BaseProps) (el : option Target) (c : Comp) :
  dom (fixedImgAttrs id h w)
    = ({[ "data-rmiz-modal-img"; "height"; "id"; "ref"; "style"; "width" ]}
         : gset string) ∧
  (∀ k, k ∈ dom (fixedImgAttrs id h w) →
        modalImgAttrs id h w p el c !! k = fixedImgAttrs id h w !! k) ∧
  (∀ z k, isZoomImgLoaded c = true → modalState c = LOADED →
        zoomImg p = Some z → k ∉ dom (fixedImgAttrs id h w) →
        modalImgAttrs id h w p el c !! k
        = match z !! k with
          | Some v => Some v
          | None => ownImgAttrs el !! k
          end).
Proof.
  split; [| split].
  - unfold fixedImgAttrs. rewrite !dom_insert_L, dom_singleton_L. set_solver.
  - intros k [v Hv]%elem_of_dom. unfold modalImgAttrs.
    by rewrite (lookup_union_Some_l _ _ _ _ Hv).
  - intros z k Hl Hm Hz Hk%not_elem_of_dom. unfold modalImgAttrs, spreadZoomImg.
    rewrite Hl, Hm, Hz. simpl. rewrite lookup_union_r by done.
    destruct (z !! k) as [v |] eqn:Hzk.
    + by rewrite (lookup_union_Some_l _ _ _ _ Hzk).
    + by rewrite lookup_union_r.
Qed.

(** ** A replacement without a source *)

Lemma decoding_render c p el :
  hasZoomImg p = false →
  decoding (step c (Render p el)) = decoding c.
Proof.
  intros Hp. simpl. destruct (unmounted c); [done |]. unfold render.
  unfold perform, zoom, unzoom, loadZoomImg.
  change (props (nextCommit p el c)) with p.
  unfold hasZoomImg in Hp. rewrite Hp.
  destruct (lingeringEffect_frame (committed c) (nextCommit p el c)
    (setCommitted (nextCommit p el c) (S (renders c)) c))
    as (_ & _ & _ & _ & _ & _ & _ & _ & Hd & _).
  repeat case_match; simpl; by rewrite ?Hd.
Qed.

Lemma srcless_step c e :
  srcless e = true → decoding c = 0 → isZoomImgLoaded c = false →
  decoding (step c e) = 0 ∧ isZoomImgLoaded (step c e) = false.
Proof.
  intros He Hd Hl. split.
  - destruct e; simpl in He.
    + rewrite decoding_render; [done | by destruct (hasZoomImg p)].
    + simpl. destruct (unmounted c); [done |].
      unfold unmount, cleanupLingering. by destruct (committed c).
    + simpl. by destruct (unmounted c).
    + simpl. destruct (timers c) as [| d ds]; [done |].
      by destruct (runDeferred_frame d (setTimers ds c))
        as (_ & _ & _ & _ & _ & -> & _).
    + simpl. by rewrite Hd.
    + simpl. by rewrite Hd.
    + simpl. by destruct (runHandlers_frame (attached t ty c) c)
        as (_ & _ & _ & _ & _ & _ & _ & -> & _).
    + simpl. destruct (mountedCommit c) as [r |]; [| done].
      by destruct (clicks_frame _ (clickPath_reports r w) c)
        as (_ & _ & _ & _ & _ & _ & _ & _ & ->).
    + simpl. destruct (mountedCommit c) as [r |]; [| done].
      unfold handleDialogKeyDown, handleClose. destruct (isEscape e); [| done].
      simpl. by destruct (report_frame (onZoomChange (props r)) false c)
        as (_ & _ & _ & _ & _ & _ & _ & _ & ->).
    + simpl. destruct (mountedCommit c) as [r |]; [| done]. unfold handleClose.
      by destruct (report_frame (onZoomChange (props r)) false c)
        as (_ & _ & _ & _ & _ & _ & _ & _ & ->).
  - rewrite isZoomImgLoaded_step, Hl. destruct e; try done. simpl.
    rewrite Hd. done.
Qed.

(** If no render of a run passes a [zoomImg] with a non-empty [src] (none
    at all, or one with only [srcSet] or [sizes]), no decode is ever started
    and the readiness flag stays false, so nothing of [zoomImg] is ever
    spread into the modal image. *)
Theorem no_src_never_ready (es : list Event) :
  forallb srcless es = true →
  decoding (run init es) = 0 ∧
  isZoomImgLoaded (run init es) = false ∧
  (∀ p, spreadZoomImg p (run init es) = ∅).
Proof.
  intros Hes.
  assert (H : ∀ c, decoding c = 0 → isZoomImgLoaded c = false →
              decoding (run c es) = 0 ∧ isZoomImgLoaded (run c es) = false).
  { induction es as [| e es IH]; intros c Hd Hl; simpl; [done |].
    simpl in Hes. apply andb_prop in Hes as [He Hes].
    destruct (srcless_step c e He Hd Hl) as [Hd' Hl'].
    by apply IH. }
  destruct (H init eq_refl eq_refl) as [Hd Hl].
  split; [done |]. split; [done |].
  intros p. unfold spreadZoomImg. by rewrite Hl.
Qed.

Lemma no_src_never_ready_witness :
  isZoomImgLoaded
    (run init [ Render (plainProps false None Window (Some onlySrcSet)) (Some photo);
                Render (plainProps true None Window (Some onlySrcSet)) (Some photo);
                DecodeResolved; TransitionEnd; Timeout ]) = false.
Proof.
  exact (proj1 (proj2 (no_src_never_ready
    [ Render (plainProps false None Window (Some onlySrcSet)) (Some photo);
      Render (plainProps true None Window (Some onlySrcSet)) (Some photo);
      DecodeResolved; TransitionEnd; Timeout ] eq_refl))).
Defined.

(** ** The listener list *)

Lemma addEventListener_elem t ty h c l :
  l ∈ listeners (addEventListener t ty h c) ↔
  l ∈ listeners c ∨ l = {| l_target := t; l_type := ty; l_handler := h |}.
Proof.
  unfold addEventListener. case_bool_decide as Hin; simpl.
  - split; [auto | intros [? | ->]; done].
  - rewrite elem_of_app, list_elem_of_singleton. done.
Qed.

Lemma removeEventListener_elem t ty h c l :
  l ∈ listeners (removeEventListener t ty h c) ↔
  l ∈ listeners c ∧ l ≠ {| l_target := t; l_type := ty; l_handler := h |}.
Proof.
  unfold removeEventListener. simpl. rewrite list_elem_of_filter. tauto.
Qed.

Lemma addEventListener_NoDup t ty h c :
  NoDup (listeners c) → NoDup (listeners (addEventListener t ty h c)).
Proof.
  intros Hn. unfold addEventListener. case_bool_decide as Hin; simpl; [done |].
  apply NoDup_app. split; [done |]. split; [| apply NoDup_singleton].
  intros x Hx ->%list_elem_of_singleton. done.
Qed.

Lemma removeEventListener_NoDup t ty h c :
  NoDup (listeners c) → NoDup (listeners (removeEventListener t ty h c)).
Proof. intros Hn. unfold removeEventListener. simpl. by apply NoDup_filter. Qed.

Lemma cleanupLingering_elem r c l :
  l ∈ listeners (cleanupLingering r c) ↔
  l ∈ listeners c ∧ l ≠ resizeListener ∧ l ≠ scrollListener Window (handleScroll r).
Proof.
  unfold cleanupLingering. rewrite !removeEventListener_elem.
  unfold resizeListener, scrollListener. tauto.
Qed.

Lemma cleanupLingering_NoDup r c :
  NoDup (listeners c) → NoDup (listeners (cleanupLingering r c)).
Proof.
  intros Hn. unfold cleanupLingering.
  by apply removeEventListener_NoDup, removeEventListener_NoDup.
Qed.

Lemma runDeferred_elem d c l :
  l ∈ listeners (runDeferred d c) ↔
  match d with
  | AfterZoom el hs =>
      l ∈ listeners c ∨ l = scrollListener el hs ∨ l = resizeListener
  | AfterUnzoom el hs =>
      l ∈ listeners c ∧ l ≠ scrollListener el hs ∧ l ≠ resizeListener
  end.
Proof.
  destruct d as [el hs | el hs]; unfold runDeferred.
  - rewrite !addEventListener_elem.
    cbn [listeners setModalState]. unfold scrollListener, resizeListener. tauto.
  - cbn [listeners setDialogOpen forceUpdate setModalState].
    rewrite !removeEventListener_elem. unfold scrollListener, resizeListener. tauto.
Qed.

Lemma runDeferred_NoDup d c :
  NoDup (listeners c) → NoDup (listeners (runDeferred d c)).
Proof.
  intros Hn. destruct d as [el hs | el hs]; unfold runDeferred.
  - by apply addEventListener_NoDup, addEventListener_NoDup.
  - cbn [listeners setDialogOpen forceUpdate setModalState].
    by apply removeEventListener_NoDup, removeEventListener_NoDup.
Qed.

Lemma unmount_listeners c :
  listeners (unmount c)
  = match committed c with
    | Some r => listeners (cleanupLingering r c)
    | None => listeners c
    end.
Proof. unfold unmount. by destruct (committed c). Qed.

(** Which listeners a step can leave registered: those that were, and the
    two the timer of [zoom] adds. *)
Lemma listeners_step c e l :
  l ∈ listeners (step c e) →
  l ∈ listeners c ∨
  (∃ el hs ds, e = Timeout ∧ timers c = AfterZoom el hs :: ds ∧
               (l = scrollListener el hs ∨ l = resizeListener)).
Proof.
  destruct e; [| simpl ..].
  - destruct (unmounted c) eqn:Hu; [simpl; rewrite Hu; auto |].
    rewrite (render_listeners _ _ _ Hu). unfold lingeringEffect.
    destruct (committed c); [| auto]. case_decide; [auto |].
    rewrite cleanupLingering_elem. tauto.
  - destruct (unmounted c); [auto |]. rewrite unmount_listeners.
    destruct (committed c); [| auto]. rewrite cleanupLingering_elem.
    unfold setUnmounted. simpl. tauto.
  - destruct (unmounted c); auto.
  - destruct (timers c) as [| d ds] eqn:Ht; [auto |].
    rewrite runDeferred_elem. cbn [listeners setTimers].
    destruct d as [el hs | el hs]; [| tauto].
    intros [H | H]; [auto |]. right. by exists el, hs, ds.
  - destruct (decoding c); auto.
  - auto.
  - destruct (runHandlers_frame (attached t ty c) c) as (_ & _ & _ & _ & -> & _).
    auto.
  - destruct (mountedCommit c) as [r |]; [| auto].
    destruct (clicks_frame _ (clickPath_reports r w) c)
      as (_ & _ & _ & _ & _ & -> & _). auto.
  - destruct (mountedCommit c) as [r |]; [| auto].
    unfold handleDialogKeyDown, handleClose. destruct (isEscape e); [| auto].
    simpl. destruct (report_frame (onZoomChange (props r)) false c)
      as (_ & _ & _ & _ & _ & -> & _). auto.
  - destruct (mountedCommit c) as [r |]; [| auto]. unfold handleClose.
    destruct (report_frame (onZoomChange (props r)) false c)
      as (_ & _ & _ & _ & _ & -> & _). auto.
Qed.

Lemma listeners_NoDup_step c e :
  NoDup (listeners c) → NoDup (listeners (step c e)).
Proof.
  intros Hn. destruct e; [| simpl ..].
  - destruct (unmounted c) eqn:Hu; [simpl; by rewrite Hu |].
    rewrite (render_listeners _ _ _ Hu). unfold lingeringEffect.
    destruct (committed c); [| done]. case_decide; [done |].
    by apply cleanupLingering_NoDup.
  - destruct (unmounted c); [done |]. rewrite unmount_listeners.
    destruct (committed c); [| done]. by apply cleanupLingering_NoDup.
  - by destruct (unmounted c).
  - destruct (timers c) as [| d ds]; [done |]. by apply runDeferred_NoDup.
  - by destruct (decoding c).
  - done.
  - by destruct (runHandlers_frame (attached t ty c) c) as (_ & _ & _ & _ & -> & _).
  - destruct (mountedCommit c) as [r |]; [| done].
    by destruct (clicks_frame _ (clickPath_reports r w) c)
      as (_ & _ & _ & _ & _ & -> & _).
  - destruct (mountedCommit c) as [r |]; [| done].
    unfold handleDialogKeyDown, handleClose. destruct (isEscape e); [| done].
    simpl. by destruct (report_frame (onZoomChange (props r)) false c)
      as (_ & _ & _ & _ & _ & -> & _).
  - destruct (mountedCommit c) as [r |]; [| done]. unfold handleClose.
    by destruct (report_frame (onZoomChange (props r)) false c)
      as (_ & _ & _ & _ & _ & -> & _).
Qed.

Lemma listeners_NoDup_run es : ∀ c,
  NoDup (listeners c) → NoDup (listeners (run c es)).
Proof.
  induction es as [| e es IH]; intros c Hn; simpl; [done |].
  by apply IH, listeners_NoDup_step.
Qed.

Lemma resizeShaped_step c e : resizeShaped c → resizeShaped (step c e).
Proof.
  intros Hs l Hl Hty.
  apply listeners_step in Hl as [Hl | (el & hs & ds & _ & _ & [-> | ->])];
    [by apply Hs | discriminate Hty | done].
Qed.

Lemma resizeShaped_run es : ∀ c, resizeShaped c → resizeShaped (run c es).
Proof.
  induction es as [| e es IH]; intros c Hs; simpl; [done |].
  by apply IH, resizeShaped_step.
Qed.

Lemma listeners_never_duplicated (es : list Event) (t : EventTarget) (ty : EventType) :
  NoDup (listeners (run init es)) ∧
  NoDup (attached t ty (run init es)).
Proof.
  assert (Hn : NoDup (listeners (run init es))).
  { apply listeners_NoDup_run. simpl. constructor. }
  split; [done |].
  unfold attached. apply NoDup_fmap_2_strong; [| by apply NoDup_filter].
  intros [t1 ty1 h1] [t2 ty2 h2].
  rewrite !list_elem_of_filter. simpl.
  intros [[-> ->] _] [[-> ->] _] ->. done.
Qed.

Lemma attached_resize c t :
  resizeShaped c → NoDup (listeners c) →
  Forall (fun h => h = HandleResize) (attached t Resize c) ∧
  length (attached t Resize c) ≤ 1 ∧
  (t ≠ Window → attached t Resize c = []).
Proof.
  intros Hs Hn. unfold attached.
  assert (Hall : Forall (fun l => l = resizeListener)
            (filter (fun l => l_target l = t ∧ l_type l = Resize) (listeners c))).
  { apply Forall_forall. intros l [[_ Hty] Hl]%list_elem_of_filter.
    by apply Hs. }
  assert (Hnd : NoDup (filter (fun l => l_target l = t ∧ l_type l = Resize)
                         (listeners c))) by (by apply NoDup_filter).
  destruct (filter _ (listeners c)) as [| l1 [| l2 ls]] eqn:Hf; simpl.
  - split; [done |]. split; [lia | done].
  - apply Forall_cons in Hall as [-> _]. split; [by repeat constructor |].
    split; [lia |]. intros Ht.
    assert (Hin : resizeListener ∈ filter
              (fun l => l_target l = t ∧ l_type l = Resize) (listeners c))
      by (rewrite Hf; apply list_elem_of_here).
    apply list_elem_of_filter in Hin as [[Htg _] _]. by destruct Ht.
  - apply Forall_cons in Hall as [-> Hall]. apply Forall_cons in Hall as [-> _].
    apply NoDup_cons in Hnd as [Hnd _]. exfalso. apply Hnd. apply list_elem_of_here.
Qed.

Lemma closeReports_resize hs :
  Forall (fun h => h = HandleResize) hs → closeReports hs = [].
Proof.
  induction 1 as [| h hs -> _ IH]; simpl; [done |]. done.
Qed.

(** In every state the component can reach, a resize never calls
    [onZoomChange] and never writes the lifecycle state, the dialog or the
    listeners: on the window it adds one to the refresh counter when the
    resize listener is registered, and it does nothing otherwise or on any
    other target. *)
Theorem resize_only_refreshes (es : list Event) (t : EventTarget) :
  let c := run init es in
  let c' := step c (Dispatch t Resize) in
  reported c' = reported c ∧
  modalState c' = modalState c ∧
  dialogOpen c' = dialogOpen c ∧
  listeners c' = listeners c ∧
  forceUpdateVal c'
    = (forceUpdateVal c + (if bool_decide (resizeListener ∈ listeners c ∧ t = Window)
                           then 1 else 0))%Z ∧
  (t ≠ Window → c' = c).
Proof.
  intros c c'. subst c'.
  assert (Hs : resizeShaped c).
  { apply resizeShaped_run. intros l Hl. by apply elem_of_nil in Hl. }
  assert (Hn : NoDup (listeners c)).
  { apply listeners_NoDup_run. simpl. constructor. }
  destruct (attached_resize c t Hs Hn) as (Hall & Hlen & Hne).
  simpl.
  destruct (runHandlers_frame (attached t Resize c) c)
    as (H1 & _ & _ & _ & H5 & _ & _ & _ & H9 & H10).
  destruct (runHandlers_dialogOpen (attached t Resize c) c) as [Hd _].
  rewrite H10, H1, Hd, H5, H9, (closeReports_resize _ Hall), app_nil_r.
  repeat (split; [done |]).
  split.
  - f_equal. case_bool_decide as Hin.
    + destruct Hin as [Hin ->].
      assert (Ha : HandleResize ∈ attached Window Resize c).
      { unfold attached. apply list_elem_of_fmap. exists resizeListener.
        split; [done |]. by apply list_elem_of_filter. }
      destruct (attached Window Resize c) as [| h [| h' hs]]; simpl in *;
        [by apply elem_of_nil in Ha | done | lia].
    + destruct (attached t Resize c) as [| h hs] eqn:Ha; [done |].
      exfalso. apply Hin.
      assert (Hh : h ∈ attached t Resize c) by (rewrite Ha; apply list_elem_of_here).
      unfold attached in Hh. apply list_elem_of_fmap in Hh as (l & _ & Hl).
      apply list_elem_of_filter in Hl as [[Ht Hty] Hl].
      pose proof (Hs l Hl Hty) as ->. simpl in Ht. by subst t.
  - intros Ht. by rewrite (Hne Ht).
Qed.

(** ** The two timers *)

Lemma filter_ne_id (l : Listener) (ls : list Listener) :
  l ∉ ls → filter (fun x => x ≠ l) ls = ls.
Proof.
  induction ls as [| x ls IH]; intros Hl; [done |].
  apply not_elem_of_cons in Hl as [Hx Hl].
  rewrite filter_cons, decide_True by done. by rewrite IH.
Qed.

Lemma step_timeout c d ds :
  timers c = d :: ds → step c Timeout = runDeferred d (setTimers ds c).
Proof. intros Ht. simpl. by rewrite Ht. Qed.

Lemma runDeferred_zoom_listeners c el hs :
  scrollListener el hs ∉ listeners c → resizeListener ∉ listeners c →
  listeners (runDeferred (AfterZoom el hs) c)
  = listeners c ++ [scrollListener el hs; resizeListener].
Proof.
  intros Hs Hr. unfold runDeferred, addEventListener.
  cbn [listeners setModalState].
  rewrite (bool_decide_eq_false_2 _ Hs). cbn [listeners setListeners].
  rewrite bool_decide_eq_false_2.
  - cbn [listeners setListeners]. by rewrite <- app_assoc.
  - rewrite elem_of_app, list_elem_of_singleton. by intros [H | [=]].
Qed.

Lemma runDeferred_unzoom_listeners c el hs :
  listeners (runDeferred (AfterUnzoom el hs) c)
  = filter (fun x => x ≠ scrollListener el hs)
      (filter (fun x => x ≠ resizeListener) (listeners c)).
Proof. done. Qed.

(** The timer that completes the unzoom takes off exactly the scroll
    listener its closure names and the resize listener: a scroll listener
    registered with another [handleScroll] object or on another target stays
    registered.  It sets Unloaded, resets the refresh counter and closes the
    dialog. *)
Theorem unzoom_timer_detaches
    (c : Comp) (el : EventTarget) (hs : Handler) (ds : list Deferred) :
  timers c = AfterUnzoom el hs :: ds →
  let c' := step c Timeout in
  modalState c' = UNLOADED ∧
  forceUpdateVal c' = 0%Z ∧
  dialogOpen c' = false ∧
  timers c' = ds ∧
  (∀ l, l ∈ listeners c' ↔
        l ∈ listeners c ∧ l ≠ scrollListener el hs ∧ l ≠ resizeListener).
Proof.
  intros Ht c'. subst c'. simpl. rewrite Ht.
  split; [done |]. split; [done |]. split; [done |]. split; [done |].
  intros l. by rewrite runDeferred_elem.
Qed.

Lemma unzoom_timer_detaches_witness :
  scrollListener (Element 1) (HandleScroll 1 (Some 7)) ∉
    listeners (step (run init (session (Element 1) (Some 7))) Timeout).
Proof.
  destruct (unzoom_timer_detaches (run init (session (Element 1) (Some 7)))
              (Element 1) (HandleScroll 1 (Some 7)) [] eq_refl)
    as (_ & _ & _ & _ & H).
  intros Hin. apply H in Hin as (_ & Hne & _). by apply Hne.
Defined.

(** When the timers of a zoom and of an unzoom made with the same
    [scrollableEl] and [handleScroll] are both waiting (the owner lowered
    [isZoomed] before the opening animation ended), the first one passes
    through Loaded and the second one ends in Unloaded with the dialog
    closed, the counter reset and the listeners exactly as they were. *)
Theorem reversal_timers_end_unloaded
    (c : Comp) (el : EventTarget) (hs : Handler) (ds : list Deferred) :
  timers c = AfterZoom el hs :: AfterUnzoom el hs :: ds →
  scrollListener el hs ∉ listeners c →
  resizeListener ∉ listeners c →
  modalState (step c Timeout) = LOADED ∧
  let c' := run c [Timeout; Timeout] in
  modalState c' = UNLOADED ∧
  dialogOpen c' = false ∧
  forceUpdateVal c' = 0%Z ∧
  timers c' = ds ∧
  listeners c' = listeners c.
Proof.
  intros Ht Hs Hr.
  rewrite (step_timeout _ _ _ Ht).
  destruct (runDeferred_frame (AfterZoom el hs)
              (setTimers (AfterUnzoom el hs :: ds) c))
    as (_ & _ & _ & _ & Ht1 & _ & _ & Hm1).
  cbn [timers setTimers] in Ht1.
  split; [done |].
  cbn [run foldl]. rewrite (step_timeout _ _ _ Ht), (step_timeout _ _ _ Ht1).
  split; [done |]. split; [done |]. split; [done |]. split; [done |].
  rewrite runDeferred_unzoom_listeners. cbn [listeners setTimers].
  rewrite runDeferred_zoom_listeners by done. cbn [listeners setTimers].
  rewrite !list.filter_app, !filter_cons, !filter_nil.
  rewrite (filter_ne_id _ _ Hr).
  rewrite (decide_True (P := scrollListener el hs ≠ resizeListener)) by (intros [=]).
  rewrite (decide_False (P := resizeListener ≠ resizeListener)) by (intros H; by apply H).
  rewrite ?list.filter_app, ?filter_cons, ?filter_nil.
  rewrite (filter_ne_id _ _ Hs).
  rewrite (decide_False (P := scrollListener el hs ≠ scrollListener el hs))
    by (intros H; by apply H).
  by rewrite !app_nil_r.
Qed.

Lemma reversal_timers_end_unloaded_witness :
  let c := run init [ Render (plainProps true (Some 7) Window None) (Some photo);
                      Render (plainProps false (Some 7) Window None) (Some photo);
                      TransitionEnd ] in
  modalState (step c Timeout) = LOADED ∧
  modalState (run c [Timeout; Timeout]) = UNLOADED.
Proof.
  intros c.
  destruct (reversal_timers_end_unloaded c Window (HandleScroll 1 (Some 7)) []
              eq_refl ltac:(by intros ?%elem_of_nil) ltac:(by intros ?%elem_of_nil))
    as (H1 & H2 & _).
  split; [exact H1 | exact H2].
Defined.

(** ** A target without a modal image *)

Lemma quiet_step c e :
  pending c = [] → staysZoomed e = true → lastIsZoomed c = Some true →
  modalState (step c e) = modalState c ∧
  pending (step c e) = [] ∧
  lastIsZoomed (step c e) = Some true.
Proof.
  intros Hp He Hl.
  assert (Hsame : ∀ c', modalState c' = modalState c →
            committed c' = committed c → timers c' = timers c →
            modalImgOnce c' = modalImgOnce c →
            modalState c' = modalState c ∧ pending c' = [] ∧
            lastIsZoomed c' = Some true).
  { intros c' Hm Hc Ht Ho. unfold pending, lastIsZoomed in *.
    by rewrite Hm, Hc, Ht, Ho. }
  destruct (app_eq_nil _ _ Hp) as [Ht Ho].
  destruct e.
  - destruct (unmounted c) eqn:Hu; [simpl; rewrite Hu; by apply Hsame |].
    destruct (render_summary c p el Hu) as (Hz & Hm & Hq).
    rewrite zoomEffect_toggle in Hm, Hq. simpl in He.
    set (c1 := step c (Render p el)) in *.
    rewrite Hl, He in Hm, Hq. simpl in Hm, Hq.
    by rewrite Hz, Hm, Hq, Hp, He.
  - simpl. destruct (unmounted c); [by apply Hsame |].
    destruct (unmount_frame c) as (H1 & _ & H3 & H4 & H5 & _). by apply Hsame.
  - simpl. destruct (unmounted c); [by apply Hsame |].
    unfold pending, lastIsZoomed in *. simpl. by rewrite Ht, Ho.
  - simpl. rewrite Ht. by apply Hsame.
  - simpl. destruct (decoding c); by apply Hsame.
  - by apply Hsame.
  - destruct (input_frame c (Dispatch t ty) eq_refl)
      as (H1 & _ & H3 & _ & _ & _ & H7 & H8 & _). by apply Hsame.
  - destruct (input_frame c (Click w) eq_refl)
      as (H1 & _ & H3 & _ & _ & _ & H7 & H8 & _). by apply Hsame.
  - destruct (input_frame c (KeyDown e) eq_refl)
      as (H1 & _ & H3 & _ & _ & _ & H7 & H8 & _). by apply Hsame.
  - destruct (input_frame c DialogClose eq_refl)
      as (H1 & _ & H3 & _ & _ & _ & H7 & H8 & _). by apply Hsame.
Qed.

Lemma quiet_run es : ∀ c,
  pending c = [] → forallb staysZoomed es = true → lastIsZoomed c = Some true →
  modalState (run c es) = modalState c ∧ pending (run c es) = [].
Proof.
  induction es as [| e es IH]; intros c Hp Hes Hl; simpl; [done |].
  simpl in Hes. apply andb_prop in Hes as [He Hes].
  destruct (quiet_step c e Hp He Hl) as (Hm & Hp' & Hl').
  destruct (IH (step c e) Hp' Hes Hl') as [-> ->]. done.
Qed.

(** When the resolved target is absent or is neither an image, a div nor an
    SVG, no modal image is rendered, so [zoom] registers no [transitionend]
    listener: once the owner raises [isZoomed] the state is Loading and
    stays Loading, with the content hidden, through every event for as long
    as [isZoomed] stays raised. *)
Theorem no_modal_img_stays_loading
    (c : Comp) (p : BaseProps) (el : option Target) (es : list Event) :
  unmounted c = false →
  pending c = [] →
  truthyB (lastIsZoomed c) = false →
  isZoomed p = true →
  testImg el || testDiv el || testSvg el = false →
  forallb staysZoomed es = true →
  let c' := run (step c (Render p el)) es in
  modalState c' = LOADING ∧ pending c' = [] ∧ styleContent c' = hidden.
Proof.
  intros Hu Hp Hl Hz Hel Hes c'. subst c'.
  destruct (render_summary c p el Hu) as (Hz' & Hm & Hq).
  rewrite zoomEffect_toggle in Hm, Hq.
  set (c1 := step c (Render p el)) in *.
  rewrite Hl, Hz in Hm, Hq. simpl in Hm, Hq.
  unfold hasModalImg in Hq. change (imgEl (nextCommit p el c)) with el in Hq.
  rewrite Hel, Hp in Hq. simpl in Hq. rewrite Hz in Hz'.
  destruct (quiet_run es _ Hq Hes Hz') as [Hm' Hp'].
  rewrite Hm in Hm'. split; [done |]. split; [done |].
  unfold styleContent. by rewrite Hm'.
Qed.

Lemma no_modal_img_stays_loading_witness :
  modalState
    (run (step init (Render (plainProps true (Some 7) Window None) None))
       [TransitionEnd; Timeout; Click OnOverlay; Timeout]) = LOADING.
Proof.
  exact (proj1 (no_modal_img_stays_loading init
    (plainProps true (Some 7) Window None) None
    [TransitionEnd; Timeout; Click OnOverlay; Timeout]
    eq_refl eq_refl eq_refl eq_refl eq_refl eq_refl)).
Defined.

(** ** Calm runs *)

Lemma coherent_timer c d ds :
  coherent c → timers c = d :: ds →
  ds = [] ∧ modalImgOnce c = [] ∧
  ((modalState c = LOADING ∧ ∃ el hs, d = AfterZoom el hs) ∨
   (modalState c = UNLOADING ∧ ∃ el hs, d = AfterUnzoom el hs)).
Proof.
  unfold coherent, pending. intros Hc Ht. rewrite Ht in Hc. simpl in Hc.
  destruct (modalState c); destruct Hc as [Hc1 Hc2]; try discriminate Hc2;
    destruct Hc2 as [Hc2 | (el & hs & Hc2)]; try discriminate Hc2;
    injection Hc2 as -> Hds; apply app_eq_nil in Hds as [-> ->]; eauto 8.
Qed.

Lemma coherent_toggle c p el :
  coherent c → calm c (Render p el) = true → unmounted c = false →
  let a := zoomEffect (committed c) (nextCommit p el c) in
  (a = Some DoZoom → modalState c = UNLOADED ∧ pending c = []) ∧
  (a = Some DoUnzoom → modalState c = LOADED ∧ pending c = []).
Proof.
  intros Hc Hcalm Hu a. subst a. rewrite zoomEffect_toggle.
  simpl in Hcalm. rewrite Hu in Hcalm. simpl in Hcalm.
  unfold coherent, atRest in *.
  destruct (modalState c), (lastIsZoomed c) as [[|] |], (isZoomed p);
    simpl in *; destruct Hc as [Hc1 Hc2]; try discriminate Hc1;
    try discriminate Hcalm; split; intros [=]; done.
Qed.

Lemma perform_dialogOpen a r c :
  dialogOpen (perform a r c)
  = match a with Some DoZoom => true | _ => dialogOpen c end.
Proof.
  destruct a as [[|] |]; simpl; unfold zoom, unzoom, loadZoomImg;
    repeat case_match; done.
Qed.

Lemma render_dialogOpen c p el :
  unmounted c = false →
  dialogOpen (step c (Render p el))
  = match zoomEffect (committed c) (nextCommit p el c) with
    | Some DoZoom => true
    | _ => dialogOpen c
    end.
Proof.
  intros Hu. rewrite (step_render _ _ _ Hu), perform_dialogOpen.
  by destruct (lingeringEffect_frame (committed c) (nextCommit p el c)
    (setCommitted (nextCommit p el c) (S (renders c)) c))
    as (_ & _ & _ & _ & _ & -> & _).
Qed.

Lemma runDeferred_dialogOpen d c :
  dialogOpen (runDeferred d c)
  = match d with AfterZoom _ _ => dialogOpen c | AfterUnzoom _ _ => false end.
Proof.
  destruct d; unfold runDeferred, addEventListener; simpl;
    repeat case_bool_decide; done.
Qed.

Lemma dialog_step c e :
  coherent c → calm c e = true →
  dialogOpen c = negb (bool_decide (modalState c = UNLOADED)) →
  dialogOpen (step c e) = negb (bool_decide (modalState (step c e) = UNLOADED)).
Proof.
  intros Hc Hcalm Hd.
  assert (Hsame : ∀ c', modalState c' = modalState c → dialogOpen c' = dialogOpen c →
            dialogOpen c' = negb (bool_decide (modalState c' = UNLOADED))).
  { intros c' -> ->. done. }
  destruct e.
  - destruct (unmounted c) eqn:Hu; [simpl; rewrite Hu; by apply Hsame |].
    destruct (coherent_toggle c p el Hc Hcalm Hu) as [Hz Huz].
    destruct (render_summary c p el Hu) as (_ & Hm & _).
    rewrite (render_dialogOpen _ _ _ Hu), Hm.
    destruct (zoomEffect (committed c) (nextCommit p el c)) as [[|] |]; [done | | done].
    destruct (Huz eq_refl) as [Hl _]. rewrite Hd, Hl. done.
  - simpl. destruct (unmounted c); [by apply Hsame |].
    destruct (unmount_frame c) as (H1 & _). apply Hsame; [done |].
    unfold unmount, cleanupLingering. by destruct (committed c).
  - simpl. destruct (unmounted c); by apply Hsame.
  - destruct (timers c) as [| d ds] eqn:Ht; [simpl; rewrite Ht; by apply Hsame |].
    rewrite (step_timeout _ _ _ Ht), runDeferred_dialogOpen.
    destruct (runDeferred_frame d (setTimers ds c))
      as (_ & _ & _ & _ & _ & _ & _ & ->).
    destruct (coherent_timer c d ds Hc Ht)
      as (_ & _ & [[Hm (el & hs & ->)] | [Hm (el & hs & ->)]]); [| done].
    simpl. by rewrite Hd, Hm.
  - simpl. destruct (decoding c); by apply Hsame.
  - by apply Hsame.
  - destruct (input_frame c (Dispatch t ty) eq_refl) as (H1 & _ & _ & _ & H5 & _).
    by apply Hsame.
  - destruct (input_frame c (Click w) eq_refl) as (H1 & _ & _ & _ & H5 & _).
    by apply Hsame.
  - destruct (input_frame c (KeyDown e) eq_refl) as (H1 & _ & _ & _ & H5 & _).
    by apply Hsame.
  - destruct (input_frame c DialogClose eq_refl) as (H1 & _ & _ & _ & H5 & _).
    by apply Hsame.
Qed.

Lemma dialog_run es : ∀ c,
  coherent c → calmRun c es = true →
  dialogOpen c = negb (bool_decide (modalState c = UNLOADED)) →
  dialogOpen (run c es) = negb (bool_decide (modalState (run c es) = UNLOADED)).
Proof.
  induction es as [| e es IH]; intros c Hc Hr Hd; simpl in *; [done |].
  apply andb_prop in Hr as [He Hr].
  apply IH; [by apply coherent_step | done | by apply dialog_step].
Qed.

(** In a run in which the owner changes [isZoomed] only at rest, the dialog
    is open exactly while the state is not Unloaded: [zoom] opens it on
    entering Loading, and it stays open through the closing animation until
    the timer of [unzoom] closes it. *)
Theorem calm_dialog_open_unless_unloaded (es : list Event) :
  calmRun init es = true →
  dialogOpen (run init es)
  = negb (bool_decide (modalState (run init es) = UNLOADED)).
Proof.
  intros Hr. apply dialog_run; [apply coherent_init | done | done].
Qed.

Lemma calm_dialog_open_unless_unloaded_witness :
  dialogOpen (run init (session Window (Some 7))) = true.
Proof.
  exact (calm_dialog_open_unless_unloaded (session Window (Some 7)) eq_refl).
Defined.

(** In a run in which the owner changes [isZoomed] only at rest, the value
    a render computes for [isModalZoomed], from its props and the state it
    sees, is true exactly when [isZoomed] is raised in its props and was
    raised in the render before.  A render that keeps [isZoomed] therefore
    asks for the expanded box exactly while the state it sees is Loading or
    Loaded.  The render that raises [isZoomed] asks for the collapsed box:
    the state becomes Loading in its effect, and a render of the same props
    in that state asks for the expanded box.  A render that lowers
    [isZoomed] asks for the collapsed box at once. *)
Theorem render_expands_while_zoom_persists
    (es : list Event) (p : BaseProps) :
  calmRun init es = true →
  let c := run init es in
  isModalZoomed p c = isZoomed p && truthyB (lastIsZoomed c) ∧
  (isZoomed p = truthyB (lastIsZoomed c) →
     isModalZoomed p c
     = bool_decide (modalState c = LOADING ∨ modalState c = LOADED)) ∧
  (∀ el, unmounted c = false →
     isZoomed p = true → truthyB (lastIsZoomed c) = false →
     isModalZoomed p c = false ∧
     modalState (step c (Render p el)) = LOADING ∧
     isModalZoomed p (step c (Render p el)) = true) ∧
  (∀ el loaded g b,
     styleModalImg p el loaded g c = Some b →
     b = computeBox g
           (if isZoomed p && truthyB (lastIsZoomed c)
            then Expanded else Collapsed)
           (zoomMargin p)).
Proof.
  intros Hcalm c.
  assert (Hcoh : coherent c)
    by (apply calmRun_coherent; [apply coherent_init | done]).
  assert (Hlast : truthyB (lastIsZoomed c)
                  = bool_decide (modalState c = LOADING ∨ modalState c = LOADED)).
  { unfold coherent in Hcoh.
    destruct (modalState c) eqn:Hm; destruct Hcoh as [H1 _]; rewrite H1;
      reflexivity. }
  assert (Hdef : isModalZoomed p c
                 = isZoomed p &&
                   bool_decide (modalState c = LOADING ∨ modalState c = LOADED)).
  { unfold isModalZoomed. by destruct (modalState c), (isZoomed p). }
  assert (Hz : isModalZoomed p c = isZoomed p && truthyB (lastIsZoomed c))
    by (by rewrite Hlast).
  split; [done |]. split; [| split].
  - intros Hsame. rewrite Hz, Hsame, <- Hlast. by destruct (truthyB _).
  - intros el Hu Hp Hl.
    assert (Hm : modalState (step c (Render p el)) = LOADING).
    { destruct (render_summary c p el Hu) as (_ & Hm & _).
      rewrite Hm, zoomEffect_toggle, Hl, Hp. reflexivity. }
    split; [by rewrite Hz, Hp, Hl |]. split; [done |].
    unfold isModalZoomed. by rewrite Hm, Hp.
  - intros el loaded g b. unfold styleModalImg. rewrite Hz.
    case_match; by intros [= <-].
Qed.

Lemma render_expands_while_zoom_persists_witness :
  let c := run init [Render (plainProps false (Some 7) Window (Some big))
                       (Some photo)] in
  let p := plainProps true (Some 7) Window (Some big) in
  isModalZoomed p c = false ∧
  modalState (step c (Render p (Some photo))) = LOADING ∧
  isModalZoomed p (step c (Render p (Some photo))) = true.
Proof.
  exact (proj1 (proj2 (proj2 (render_expands_while_zoom_persists
    [Render (plainProps false (Some 7) Window (Some big)) (Some photo)]
    (plainProps true (Some 7) Window (Some big)) eq_refl)))
    (Some photo) eq_refl eq_refl eq_refl).
Defined.

(** ** Steady, calm runs *)

Lemma unmounted_mono c e : unmounted c = true → unmounted (step c e) = true.
Proof.
  intros Hu. destruct e.
  - simpl. by rewrite Hu.
  - simpl. by rewrite Hu.
  - simpl. by rewrite Hu.
  - simpl. destruct (timers c) as [| d ds]; [done |].
    by destruct (runDeferred_frame d (setTimers ds c)) as (_ & _ & -> & _).
  - simpl. by destruct (decoding c).
  - done.
  - by destruct (input_frame c (Dispatch t ty) eq_refl) as (_ & _ & _ & -> & _).
  - by destruct (input_frame c (Click w) eq_refl) as (_ & _ & _ & -> & _).
  - by destruct (input_frame c (KeyDown e) eq_refl) as (_ & _ & _ & -> & _).
  - by destruct (input_frame c DialogClose eq_refl) as (_ & _ & _ & -> & _).
Qed.

Lemma unmounted_run_false es : ∀ c,
  unmounted (run c es) = false → unmounted c = false.
Proof.
  induction es as [| e es IH]; intros c H; simpl in *; [done |].
  apply IH in H. destruct (unmounted c) eqn:Hu; [| done].
  by rewrite (unmounted_mono c e Hu) in H.
Qed.

Lemma render_forceUpdateVal c p el :
  unmounted c = false →
  forceUpdateVal (step c (Render p el)) = forceUpdateVal c.
Proof.
  intros Hu. rewrite (step_render _ _ _ Hu).
  destruct (perform_frame (zoomEffect (committed c) (nextCommit p el c))
    (nextCommit p el c)
    (lingeringEffect (committed c) (nextCommit p el c)
       (setCommitted (nextCommit p el c) (S (renders c)) c))) as (_ & -> & _).
  by destruct (lingeringEffect_frame (committed c) (nextCommit p el c)
    (setCommitted (nextCommit p el c) (S (renders c)) c)) as (_ & _ & -> & _).
Qed.

Lemma forceUpdateVal_input c e :
  isInput e = true →
  forceUpdateVal (step c e)
  = (forceUpdateVal c
     + match e with
       | Dispatch t ty => Z.of_nat (length (attached t ty c))
       | _ => 0
       end)%Z.
Proof.
  intros He. destruct e; try discriminate He; simpl.
  - by destruct (runHandlers_frame (attached t ty c) c)
      as (_ & _ & _ & _ & _ & _ & _ & _ & -> & _).
  - rewrite Z.add_0_r. destruct (mountedCommit c) as [r |]; [| done].
    by destruct (clicks_frame _ (clickPath_reports r w) c) as (_ & _ & -> & _).
  - rewrite Z.add_0_r. destruct (mountedCommit c) as [r |]; [| done].
    unfold handleDialogKeyDown, handleClose. destruct (isEscape e); [| done].
    simpl. by destruct (report_frame (onZoomChange (props r)) false c)
      as (_ & _ & -> & _).
  - rewrite Z.add_0_r. destruct (mountedCommit c) as [r |]; [| done].
    unfold handleClose. by destruct (report_frame (onZoomChange (props r)) false c)
      as (_ & _ & -> & _).
Qed.

Lemma tidy_ext cb el c c' :
  modalState c' = modalState c → committed c' = committed c →
  timers c' = timers c → modalImgOnce c' = modalImgOnce c →
  listeners c' = listeners c →
  (modalState c = UNLOADED → forceUpdateVal c = 0%Z → forceUpdateVal c' = 0%Z) →
  tidy cb el c → tidy cb el c'.
Proof.
  intros Hm Hc Ht Ho Hl Hf (fn & H1 & H2 & H3 & H4).
  exists fn. unfold pending in *. rewrite Hm, Hc, Ht, Ho, Hl.
  split; [done |]. split; [done |]. split; [done |].
  intros Hx. apply Hf; [done | by apply H4].
Qed.

Lemma tidy_step cb el c e :
  coherent c → tidy cb el c →
  calm c e = true → steady cb el e = true →
  unmounted (step c e) = false →
  tidy cb el (step c e).
Proof.
  intros Hcoh Htidy Hcalm Hst Hu'.
  assert (Hu : unmounted c = false).
  { destruct (unmounted c) eqn:Hu; [| done].
    by rewrite (unmounted_mono c e Hu) in Hu'. }
  destruct e.
  - (* Render *)
    simpl in Hst. apply andb_prop in Hst as [Hcb Hel].
    apply bool_decide_eq_true_1 in Hcb, Hel.
    destruct (coherent_toggle c p el0 Hcoh Hcalm Hu) as [Hz Huz].
    destruct (render_summary c p el0 Hu) as (_ & Hm & Hp).
    destruct (render_committed c p el0 Hu) as [Hc' _].
    pose proof (render_forceUpdateVal c p el0 Hu) as Hf.
    pose proof (render_listeners c p el0 Hu) as Hl.
    destruct Htidy as (fn & H1 & H2 & H3 & H4).
    destruct (committed c) as [r |] eqn:Hr.
    + pose proof (H1 r eq_refl) as Hh.
      assert (Hcb' : onZoomChange p = onZoomChange (props r)).
      { unfold handleScroll in Hh. injection Hh as _ ->. done. }
      destruct (nextCommit_same_callback c r p el0 Hr Hcb') as (_ & Hfn & Hh').
      exists fn. split; [| split; [| split]].
      * intros r'. rewrite Hc'. intros [= <-]. by rewrite Hh', Hh.
      * rewrite Hp. apply Forall_app. split; [done |].
        rewrite Hh', Hh, Hel.
        destruct (zoomEffect _ _) as [[|] |]; repeat case_match;
          first [by apply Forall_nil | apply Forall_singleton; auto].
      * rewrite Hl, Hm. unfold lingeringEffect. rewrite decide_True by done.
        rewrite H3.
        destruct (zoomEffect _ _) as [[|] |]; [| | done].
        -- destruct (Hz eq_refl) as [-> _]. done.
        -- destruct (Huz eq_refl) as [-> _]. done.
      * rewrite Hf, Hm.
        destruct (zoomEffect _ _) as [[|] |]; [done | done | done].
    + assert (Hun : modalState c = UNLOADED ∧ pending c = []).
      { unfold coherent, lastIsZoomed in Hcoh. rewrite Hr in Hcoh. simpl in Hcoh.
        destruct (modalState c); destruct Hcoh as [Hx Hy]; by try discriminate Hx. }
      destruct Hun as [Hun Hpe]. rewrite Hun in H3. simpl in H3.
      exists (S (renders c)). split; [| split; [| split]].
      * intros r'. rewrite Hc'. intros [= <-].
        unfold handleScroll, nextCommit, useCallback. rewrite Hr. simpl.
        by rewrite Hcb.
      * rewrite Hp, Hpe. rewrite app_nil_l.
        assert (Hh : handleScroll (nextCommit p el0 c)
                     = HandleScroll (S (renders c)) cb).
        { unfold handleScroll, nextCommit, useCallback. rewrite Hr. simpl.
          by rewrite Hcb. }
        rewrite Hh, Hel.
        destruct (zoomEffect _ _) as [[|] |]; repeat case_match;
          first [by apply Forall_nil | apply Forall_singleton; auto].
      * rewrite Hl, Hm. unfold lingeringEffect. rewrite H3, Hun.
        destruct (zoomEffect _ _) as [[|] |]; [done | | done].
        destruct (Huz eq_refl) as [Hx _]. by rewrite Hun in Hx.
      * rewrite Hf, Hm.
        destruct (zoomEffect _ _) as [[|] |]; [done | done | done].
  - (* Unmount *)
    simpl in Hu'. rewrite Hu in Hu'.
    destruct (unmount_frame c) as (_ & _ & _ & _ & _ & Hx).
    by rewrite Hx in Hu'.
  - (* TransitionEnd *)
    simpl. rewrite Hu. destruct Htidy as (fn & H1 & H2 & H3 & H4).
    exists fn. unfold pending in *. simpl. by rewrite app_nil_r.
  - (* Timeout *)
    destruct (timers c) as [| d ds] eqn:Ht; [simpl; by rewrite Ht |].
    rewrite (step_timeout _ _ _ Ht).
    destruct (coherent_timer c d ds Hcoh Ht) as (-> & Ho & Hk).
    destruct Htidy as (fn & H1 & H2 & H3 & H4).
    destruct (runDeferred_frame d (setTimers [] c))
      as (_ & Hc' & _ & Ho' & Ht' & _ & _ & Hm').
    exists fn. unfold pending in *. rewrite Hc', Ho', Ht', Hm'. simpl.
    rewrite Ht, Ho in H2. apply Forall_cons in H2 as [Hd _]. rewrite Ho.
    split; [done |]. split; [done |].
    destruct Hk as [[Hm (el1 & hs1 & ->)] | [Hm (el1 & hs1 & ->)]];
      destruct Hd as [[=] | [=]]; subst; rewrite Hm in H3; simpl in H3.
    + split; [| done].
      rewrite runDeferred_zoom_listeners; simpl; rewrite H3;
        [done | by intros ?%elem_of_nil | by intros ?%elem_of_nil].
    + split; [| done].
      rewrite runDeferred_unzoom_listeners. simpl. rewrite H3.
      rewrite !filter_cons, filter_nil.
      rewrite (decide_True (P := scrollListener el (HandleScroll fn cb) ≠ resizeListener))
        by (intros [=]).
      rewrite (decide_False (P := resizeListener ≠ resizeListener))
        by (intros H; by apply H).
      rewrite !filter_cons, filter_nil.
      by rewrite decide_False by (intros H; by apply H).
  - (* DecodeResolved *)
    simpl. destruct (decoding c); by apply (tidy_ext cb el c).
  - by apply (tidy_ext cb el c).
  - (* Dispatch *)
    destruct (input_frame c (Dispatch t ty) eq_refl)
      as (G1 & _ & G3 & _ & _ & G6 & G7 & G8 & _).
    apply (tidy_ext cb el c); try done.
    intros Hm Hf. rewrite (forceUpdateVal_input c (Dispatch t ty) eq_refl), Hf.
    destruct Htidy as (fn & _ & _ & H3 & _). rewrite Hm in H3. simpl in H3.
    unfold attached. by rewrite H3.
  - destruct (input_frame c (Click w) eq_refl)
      as (G1 & _ & G3 & _ & _ & G6 & G7 & G8 & _).
    apply (tidy_ext cb el c); try done.
    intros _ Hf. by rewrite (forceUpdateVal_input c (Click w) eq_refl), Hf.
  - destruct (input_frame c (KeyDown e) eq_refl)
      as (G1 & _ & G3 & _ & _ & G6 & G7 & G8 & _).
    apply (tidy_ext cb el c); try done.
    intros _ Hf. by rewrite (forceUpdateVal_input c (KeyDown e) eq_refl), Hf.
  - destruct (input_frame c DialogClose eq_refl)
      as (G1 & _ & G3 & _ & _ & G6 & G7 & G8 & _).
    apply (tidy_ext cb el c); try done.
    intros _ Hf. by rewrite (forceUpdateVal_input c DialogClose eq_refl), Hf.
Qed.

Lemma tidy_init cb el : tidy cb el init.
Proof.
  exists 0. split; [by intros r [=] |]. split; [by constructor |]. done.
Qed.

Lemma tidy_run cb el es : ∀ c,
  coherent c → tidy cb el c →
  calmRun c es = true → forallb (steady cb el) es = true →
  unmounted (run c es) = false →
  tidy cb el (run c es).
Proof.
  induction es as [| e es IH]; intros c Hcoh Ht Hcalm Hst Hu; simpl in *; [done |].
  apply andb_prop in Hcalm as [He Hcalm]. apply andb_prop in Hst as [Hs Hst].
  pose proof (unmounted_run_false es _ Hu) as Hu1.
  apply IH; try done.
  - by apply coherent_step.
  - by apply tidy_step.
Qed.

(** With an owner that passes the same [onZoomChange] and [scrollableEl] in
    every render and changes [isZoomed] only at rest, a mounted component
    that is Unloaded (before the first zoom and after every completed
    unzoom) has no scroll or resize listener registered, no callback
    waiting, the dialog closed and the refresh counter at 0. *)
Theorem steady_run_unloaded_is_clean
    (cb : option Fn) (el : EventTarget) (es : list Event) :
  calmRun init es = true →
  forallb (steady cb el) es = true →
  unmounted (run init es) = false →
  modalState (run init es) = UNLOADED →
  listeners (run init es) = [] ∧
  pending (run init es) = [] ∧
  forceUpdateVal (run init es) = 0%Z ∧
  dialogOpen (run init es) = false.
Proof.
  intros Hcalm Hst Hu Hm.
  destruct (tidy_run cb el es init coherent_init (tidy_init cb el) Hcalm Hst Hu)
    as (fn & _ & _ & H3 & H4).
  pose proof (calmRun_coherent es init coherent_init Hcalm) as Hcoh.
  pose proof (dialog_run es init coherent_init Hcalm eq_refl) as Hd.
  unfold coherent in Hcoh. rewrite Hm in Hcoh, H3, Hd.
  destruct Hcoh as [_ Hp]. auto.
Qed.

Lemma steady_run_unloaded_is_clean_witness :
  listeners (run init (session (Element 1) (Some 7) ++ [Timeout])) = [].
Proof.
  exact (proj1 (steady_run_unloaded_is_clean (Some 7) (Element 1)
    (session (Element 1) (Some 7) ++ [Timeout]) eq_refl eq_refl eq_refl eq_refl)).
Defined.

(** With such an owner, a mounted component that is Loaded or Unloading has
    exactly two listeners registered, one [handleScroll] on [scrollableEl]
    and [handleResize] on the window, and that [handleScroll] reports to the
    [onZoomChange] of the last render: a scroll event on [scrollableEl]
    calls it with false exactly once. *)
Theorem steady_run_loaded_listens
    (cb : option Fn) (el : EventTarget) (es : list Event) :
  calmRun init es = true →
  forallb (steady cb el) es = true →
  unmounted (run init es) = false →
  modalState (run init es) = LOADED ∨ modalState (run init es) = UNLOADING →
  let c := run init es in
  (∃ fn, listeners c = [scrollListener el (HandleScroll fn cb); resizeListener] ∧
         attached el Scroll c = [HandleScroll fn cb]) ∧
  (∀ r, committed c = Some r → onZoomChange (props r) = cb) ∧
  reported (step c (Dispatch el Scroll))
  = reported c ++ match cb with Some f => [(f, false)] | None => [] end.
Proof.
  intros Hcalm Hst Hu Hm c. subst c.
  destruct (tidy_run cb el es init coherent_init (tidy_init cb el) Hcalm Hst Hu)
    as (fn & H1 & _ & H3 & _).
  assert (Hl : listeners (run init es)
               = [scrollListener el (HandleScroll fn cb); resizeListener]).
  { rewrite H3. by destruct Hm as [-> | ->]. }
  assert (Ha : attached el Scroll (run init es) = [HandleScroll fn cb]).
  { unfold attached. rewrite Hl. rewrite !filter_cons, filter_nil.
    rewrite decide_True by done.
    by rewrite decide_False by (intros [_ [=]]). }
  split; [by exists fn |]. split.
  - intros r Hr. specialize (H1 r Hr). unfold handleScroll in H1.
    by injection H1.
  - simpl.
    destruct (runHandlers_frame (attached el Scroll (run init es)) (run init es))
      as (_ & _ & _ & _ & _ & _ & _ & _ & _ & ->).
    rewrite Ha. by destruct cb.
Qed.

Lemma steady_run_loaded_listens_witness :
  reported (step (opened (Element 1) (Some 7)) (Dispatch (Element 1) Scroll))
  = [(7, false)].
Proof.
  exact (proj2 (proj2 (steady_run_loaded_listens (Some 7) (Element 1)
    [ Render (plainProps false (Some 7) (Element 1) (Some big)) (Some photo);
      Render (plainProps true (Some 7) (Element 1) (Some big)) (Some photo);
      TransitionEnd; Timeout ] eq_refl eq_refl eq_refl (or_introl eq_refl)))).
Defined.

(** ** Scrolling while Loaded *)

(** C5 (as the code has it): with an owner that passes the same
    [onZoomChange] and [scrollableEl] in every render and changes
    [isZoomed] only at rest, exactly one [handleScroll] is registered on
    [scrollableEl] while a mounted component is Loaded; a scroll event
    there bumps the refresh counter by one and calls [onZoomChange] with
    false once, or calls nothing when the owner passed none.  The state is
    still Loaded afterwards and the listeners are still registered;
    Loaded→Unloading happens in the render in which the owner lowers
    [isZoomed].  In any state, a scroll event runs each scroll handler
    registered on its target once and changes neither the lifecycle state
    nor the listeners. *)
Theorem scroll_reports_close
    (cb : option Fn) (el : EventTarget) (es : list Event) :
  calmRun init es = true →
  forallb (steady cb el) es = true →
  unmounted (run init es) = false →
  modalState (run init es) = LOADED →
  let c := run init es in
  let c' := step c (Dispatch el Scroll) in
  (∃ fn, attached el Scroll c = [HandleScroll fn cb]) ∧
  modalState c' = LOADED ∧
  reported c'
  = reported c ++ match cb with Some f => [(f, false)] | None => [] end ∧
  forceUpdateVal c' = (forceUpdateVal c + 1)%Z ∧
  listeners c' = listeners c ∧
  (∀ p tgt, isZoomed p = false →
     modalState (step c' (Render p tgt)) = UNLOADING) ∧
  (∀ c0 t,
     let c1 := step c0 (Dispatch t Scroll) in
     modalState c1 = modalState c0 ∧
     listeners c1 = listeners c0 ∧
     reported c1 = reported c0 ++ closeReports (attached t Scroll c0) ∧
     forceUpdateVal c1
     = (forceUpdateVal c0 + Z.of_nat (length (attached t Scroll c0)))%Z).
Proof.
  intros Hcalm Hst Hu Hm c c'. subst c c'.
  destruct (tidy_run cb el es init coherent_init (tidy_init cb el) Hcalm Hst Hu)
    as (fn & _ & _ & H3 & _).
  pose proof (calmRun_coherent es init coherent_init Hcalm) as Hcoh.
  unfold coherent in Hcoh. rewrite Hm in Hcoh. destruct Hcoh as [Hz _].
  assert (Ha : attached el Scroll (run init es) = [HandleScroll fn cb]).
  { unfold attached. rewrite H3, Hm. simpl.
    rewrite !filter_cons, filter_nil.
    rewrite decide_True by done.
    by rewrite decide_False by (intros [_ [=]]). }
  assert (Hgen : ∀ c0 t,
    let c1 := step c0 (Dispatch t Scroll) in
    modalState c1 = modalState c0 ∧
    listeners c1 = listeners c0 ∧
    reported c1 = reported c0 ++ closeReports (attached t Scroll c0) ∧
    forceUpdateVal c1
    = (forceUpdateVal c0 + Z.of_nat (length (attached t Scroll c0)))%Z).
  { intros c0 t. simpl.
    destruct (runHandlers_frame (attached t Scroll c0) c0)
      as (G1 & _ & _ & _ & G5 & _ & _ & _ & G9 & G10).
    done. }
  destruct (Hgen (run init es) el) as (G1 & G5 & G10 & G9).
  rewrite Ha in G10, G9. simpl in G10, G9.
  split; [by exists fn |].
  split; [congruence |].
  split; [by destruct cb |].
  split; [done |].
  split; [done |].
  split; [| exact Hgen].
  intros p tgt Hp.
  set (c1 := step (run init es) (Dispatch el Scroll)).
  destruct (runHandlers_frame (attached el Scroll (run init es)) (run init es))
    as (_ & _ & K3 & K4 & _).
  unfold lastIsZoomed, usePrevious in Hz.
  destruct (committed (run init es)) as [r |] eqn:Hr; [| done].
  simpl in Hz. injection Hz as Hz.
  assert (Hr1 : committed c1 = Some r) by (subst c1; simpl; congruence).
  assert (Hu1 : unmounted c1 = false) by (subst c1; simpl; congruence).
  destruct (zoom_edge_helper c1 r p tgt Hr1 Hu1) as (_ & Hun).
  apply Hun. by rewrite Hz, Hp.
Qed.

Lemma scroll_reports_close_witness :
  let c := step (opened (Element 1) (Some 7)) (Dispatch (Element 1) Scroll) in
  modalState c = LOADED ∧ reported c = [(7, false)].
Proof.
  destruct (scroll_reports_close (Some 7) (Element 1)
    [ Render (plainProps false (Some 7) (Element 1) (Some big)) (Some photo);
      Render (plainProps true (Some 7) (Element 1) (Some big)) (Some photo);
      TransitionEnd; Timeout ] eq_refl eq_refl eq_refl eq_refl)
    as (_ & Hm & Hr & _).
  split; [exact Hm | exact Hr].
Defined.

(** C5 as stated fails.  A scroll event leaves the state Loaded, and every
    further scroll event reports again.  With an owner that passes another
    [onZoomChange] while the component is Loaded, the second session on an
    element other than the window has two scroll handlers, and one scroll
    event reports twice; on the window the first session is left with no
    scroll handler, and a scroll event reports nothing. *)
Lemma scroll_does_not_leave_loaded :
  let c := opened (Element 1) (Some 7) in
  let d := run init (callbackSwap (Element 1)) in
  let w := run init (take 5 (callbackSwap Window)) in
  (modalState c = LOADED ∧
   attached (Element 1) Scroll c = [HandleScroll 1 (Some 7)] ∧
   modalState (step c (Dispatch (Element 1) Scroll)) = LOADED ∧
   reported (run c [Dispatch (Element 1) Scroll; Dispatch (Element 1) Scroll])
   = [(7, false); (7, false)]) ∧
  (calmRun init (callbackSwap (Element 1)) = true ∧
   unmounted d = false ∧
   modalState d = LOADED ∧
   attached (Element 1) Scroll d
   = [HandleScroll 1 (Some 7); HandleScroll 3 (Some 8)] ∧
   reported d = [] ∧
   reported (step d (Dispatch (Element 1) Scroll)) = [(7, false); (8, false)]) ∧
  (calmRun init (take 5 (callbackSwap Window)) = true ∧
   unmounted w = false ∧
   modalState w = LOADED ∧
   attached Window Scroll w = [] ∧
   reported (step w (Dispatch Window Scroll)) = []) ∧
  ¬ (∀ c' t, modalState c' = LOADED → attached t Scroll c' ≠ [] →
             modalState (step c' (Dispatch t Scroll)) = UNLOADING).
Proof.
  intros c d w. repeat split; try reflexivity.
  intros H.
  assert (Ha : attached (Element 1) Scroll c ≠ []) by (intros [=]).
  specialize (H c (Element 1) eq_refl Ha). discriminate H.
Qed.

(** ** The listeners on the resolved target *)

Lemma elem_of_addTargetListener x l ls :
  x ∈ addTargetListener l ls ↔ x ∈ ls ∨ x = l.
Proof.
  unfold addTargetListener. case_bool_decide.
  - split; [auto | intros [? | ->]; done].
  - by rewrite elem_of_app, list_elem_of_singleton.
Qed.

Lemma elem_of_removeTargetListener x o ls :
  x ∈ removeTargetListener o ls ↔ x ∈ ls ∧ o ≠ Some x.
Proof.
  destruct o as [l |]; simpl.
  - rewrite list_elem_of_filter. split; intros [? ?]; split; try done; congruence.
  - split; [intros ?; by split | by intros [? _]].
Qed.

Lemma elem_of_registerTargetListener x o ls :
  x ∈ registerTargetListener o ls ↔ x ∈ ls ∨ o = Some x.
Proof.
  destruct o as [l |]; simpl.
  - rewrite elem_of_addTargetListener. naive_solver.
  - naive_solver.
Qed.

Lemma registerTargetListener_NoDup o ls :
  NoDup ls → NoDup (registerTargetListener o ls).
Proof.
  intros Hn. destruct o as [l |]; simpl; [| done].
  unfold addTargetListener. case_bool_decide; [done |].
  apply NoDup_app. split; [done |]. split; [| apply NoDup_singleton].
  by intros x Hx ->%list_elem_of_singleton.
Qed.

Lemma addTargetListener_NoDup l ls : NoDup ls → NoDup (addTargetListener l ls).
Proof.
  intros Hn. unfold addTargetListener. case_bool_decide; [done |].
  apply NoDup_app. split; [done |]. split; [| apply NoDup_singleton].
  by intros x Hx ->%list_elem_of_singleton.
Qed.

Lemma removeTargetListener_NoDup o ls : NoDup ls → NoDup (removeTargetListener o ls).
Proof. intros Hn. destruct o; simpl; [by apply NoDup_filter | done]. Qed.

Lemma elem_of_owedListeners l s :
  l ∈ owedListeners s ↔
  cleanupOf (loadEffect s) = Some l ∨ cleanupOf (clickEffect s) = Some l.
Proof.
  unfold owedListeners. rewrite elem_of_app.
  destruct (cleanupOf (loadEffect s)), (cleanupOf (clickEffect s)); simpl;
    rewrite ?list_elem_of_singleton, ?elem_of_nil; naive_solver.
Qed.

Lemma runTargetHandlers_frame hs : ∀ s,
  let s' := foldl (fun s h => runTargetHandler h s) s hs in
  loadedImgEl s' = loadedImgEl s ∧
  targetListeners s' = targetListeners s ∧
  loadEffect s' = loadEffect s ∧
  clickEffect s' = clickEffect s ∧
  lastTarget s' = lastTarget s ∧
  targetGone s' = targetGone s ∧
  decodes s'
  = decodes s ++ omap (fun h => match h with
                                | HandleImgLoad _ pr => Some pr
                                | HandleOpen _ => None
                                end) hs ∧
  opens s'
  = opens s ++ omap (fun h => match h with
                              | HandleOpen fn => Some fn
                              | HandleImgLoad _ _ => None
                              end) hs.
Proof.
  induction hs as [| h hs IH]; intros s; simpl.
  - by rewrite !app_nil_r.
  - destruct (IH (runTargetHandler h s)) as (-> & -> & -> & -> & -> & -> & -> & ->).
    destruct h; simpl; by rewrite <- ?app_assoc.
Qed.

Lemma probeDecoded_frame i b s :
  targetListeners (probeDecoded i b s) = targetListeners s ∧
  loadEffect (probeDecoded i b s) = loadEffect s ∧
  clickEffect (probeDecoded i b s) = clickEffect s ∧
  lastTarget (probeDecoded i b s) = lastTarget s ∧
  targetGone (probeDecoded i b s) = targetGone s ∧
  opens (probeDecoded i b s) = opens s.
Proof. unfold probeDecoded. by destruct (decodes s !! i). Qed.


Lemma settled_init : settled targetInit.
Proof.
  split; [constructor |]. split; [done |]. split; [done |]. split; [done |]. done.
Qed.

Lemma settled_frame s s' :
  targetListeners s' = targetListeners s → loadEffect s' = loadEffect s →
  clickEffect s' = clickEffect s → lastTarget s' = lastTarget s →
  settled s → settled s'.
Proof.
  unfold settled, owedListeners. by intros -> -> -> ->.
Qed.

Lemma loadDeps_probe el el0 e e0 k :
  loadDeps el = loadDeps el0 → el = Some e → el0 = Some e0 →
  loadListener e k (probeOf el) = loadListener e0 k (probeOf el0).
Proof.
  intros Hd -> ->. unfold loadDeps in Hd. simpl in Hd.
  injection Hd as Hid Hs Hsrc Hset Himg.
  unfold loadListener, probeOf. simpl. by rewrite Hid, Hs, Hsrc, Hset, Himg.
Qed.

Lemma swap_listeners (dueL dueC : bool)
    (cL cC newL newC : option TargetListener) (ls : list TargetListener) l :
  (∀ x, x ∈ ls ↔ cL = Some x ∨ cC = Some x) →
  (∀ x, cL = Some x ∨ newL = Some x → tl_type x = Load) →
  (∀ x, cC = Some x ∨ newC = Some x → tl_type x = ClickEv) →
  let ls1 := if dueL then removeTargetListener cL ls else ls in
  let ls2 := if dueC then removeTargetListener cC ls1 else ls1 in
  let ls3 := if dueL then registerTargetListener newL ls2 else ls2 in
  let ls4 := if dueC then registerTargetListener newC ls3 else ls3 in
  l ∈ ls4 ↔
  (if dueL then newL else cL) = Some l ∨ (if dueC then newC else cC) = Some l.
Proof.
  intros Hin HL HC ls1 ls2 ls3 ls4. subst ls1 ls2 ls3 ls4.
  assert (Hne : ∀ x y, (cL = Some x ∨ newL = Some x) →
                       (cC = Some y ∨ newC = Some y) → x ≠ y).
  { intros x y Hx Hy ->. apply HL in Hx. apply HC in Hy. congruence. }
  destruct dueL, dueC;
    rewrite ?elem_of_registerTargetListener, ?elem_of_removeTargetListener,
      ?elem_of_registerTargetListener, ?elem_of_removeTargetListener, ?Hin.
  - naive_solver.
  - split.
    + intros [[[H | H] Hn] | H]; [done | by right | by left].
    + intros [H | H]; [by right |]. left. split; [by right |].
      intros H'. by apply (Hne l l (or_introl H') (or_introl H)).
  - split.
    + intros [[[H | H] Hn] | H]; [by left | done | by right].
    + intros [H | H]; [| by right]. left. split; [by left |].
      intros H'. by apply (Hne l l (or_introl H) (or_introl H')).
  - done.
Qed.

Lemma settled_render el fn s : settled s → settled (targetRender el fn s).
Proof.
  intros (Hnd & Hin & HtL & HtC & Hlast).
  set (src := truthy (default JsUndefined (imgSrc <$> targetOf el))).
  set (newL := if src
               then (fun e => loadListener e (S (effectRuns s)) (probeOf el)) <$> el
               else None).
  set (newC := (fun e => clickListener e fn) <$> el).
  assert (HnL : ∀ l, newL = Some l → tl_type l = Load).
  { intros l. unfold newL. destruct src, el; simpl; by intros [= <-]. }
  assert (HnC : ∀ l, newC = Some l → tl_type l = ClickEv).
  { intros l. unfold newC. destruct el; simpl; by intros [= <-]. }
  unfold settled, targetRender. fold src. fold newL. fold newC.
  cbn [targetListeners loadEffect clickEffect lastTarget].
  set (dueL := effectDue (loadDeps el) (loadEffect s)).
  set (dueC := effectDue (clickDeps fn el) (clickEffect s)).
  assert (HcL : cleanupOf (if dueL then Some (loadDeps el, newL) else loadEffect s)
                = if dueL then newL else cleanupOf (loadEffect s))
    by (by destruct dueL).
  assert (HcC : cleanupOf (if dueC then Some (clickDeps fn el, newC) else clickEffect s)
                = if dueC then newC else cleanupOf (clickEffect s))
    by (by destruct dueC).
  split; [| split; [| split; [| split; [| split]]]].
  - destruct dueL, dueC;
      repeat first [ apply registerTargetListener_NoDup
                   | apply removeTargetListener_NoDup ]; done.
  - intros l. rewrite elem_of_owedListeners. cbn [loadEffect clickEffect].
    rewrite HcL, HcC. apply swap_listeners.
    + intros x. by rewrite Hin, elem_of_owedListeners.
    + intros x [H | H]; [by apply HtL | by apply HnL].
    + intros x [H | H]; [by apply HtC | by apply HnC].
  - intros l. rewrite HcL. destruct dueL; [apply HnL | apply HtL].
  - intros l. rewrite HcC. destruct dueC; [apply HnC | apply HtC].
  - destruct dueC eqn:Hd; [done |].
    unfold dueC, effectDue in Hd.
    destruct (clickEffect s) as [[d c] |] eqn:Hc; [| done].
    apply negb_false_iff, bool_decide_eq_true_1 in Hd. subst d.
    destruct (lastTarget s) as [[el0 fn0] |]; [| by destruct Hlast].
    destruct Hlast as [Hce _]. unfold clickDeps in Hce.
    injection Hce as -> Hid ->. f_equal. f_equal.
    unfold newC. destruct el as [e |], el0 as [e0 |]; simpl in *; try done.
    injection Hid as Hid. unfold clickListener. by rewrite Hid.
  - destruct dueL eqn:Hd; [by exists (S (effectRuns s)) |].
    unfold dueL, effectDue in Hd.
    destruct (loadEffect s) as [[d c] |] eqn:Hc; [| done].
    apply negb_false_iff, bool_decide_eq_true_1 in Hd. subst d.
    destruct (lastTarget s) as [[el0 fn0] |]; [| by destruct Hlast].
    destruct Hlast as [_ (k & Hle)].
    assert (Hd : loadDeps el = loadDeps el0) by congruence.
    assert (Hcc : c = if truthy (default JsUndefined (imgSrc <$> targetOf el0))
                      then (fun e => loadListener e k (probeOf el0)) <$> el0
                      else None) by congruence.
    subst c. exists k. f_equal. f_equal.
    assert (Hsrc : truthy (default JsUndefined (imgSrc <$> targetOf el0)) = src).
    { unfold src. unfold loadDeps in Hd. by injection Hd as _ _ -> _ _. }
    rewrite Hsrc. unfold src.
    destruct (truthy (default JsUndefined (imgSrc <$> targetOf el))); [| done].
    destruct el as [e |], el0 as [e0 |]; simpl; try done.
    f_equal. symmetry. by apply (loadDeps_probe (Some e) (Some e0)).
Qed.

Lemma settled_step s e : settled s → settled (targetStep s e).
Proof.
  intros Hs. destruct e; simpl.
  - destruct (targetGone s); [done | by apply settled_render].
  - destruct (targetGone s); [done |].
    destruct Hs as (Hnd & Hin & HtL & HtC & Hlast).
    unfold settled, targetUnmount, owedListeners. simpl.
    split; [by apply removeTargetListener_NoDup, removeTargetListener_NoDup |].
    split; [| done].
    intros l. rewrite !elem_of_removeTargetListener, Hin, elem_of_owedListeners.
    rewrite elem_of_nil. naive_solver.
  - destruct (runTargetHandlers_frame
      (tl_handler <$> filter (fun l => tl_el l = id ∧ tl_type l = ty)
                        (targetListeners s)) s)
      as (_ & H2 & H3 & H4 & H5 & _).
    by apply (settled_frame s).
  - destruct (probeDecoded_frame i true s) as (H1 & H2 & H3 & H4 & _).
    by apply (settled_frame s).
  - destruct (probeDecoded_frame i false s) as (H1 & H2 & H3 & H4 & _).
    by apply (settled_frame s).
Qed.

Lemma settled_run es : ∀ s, settled s → settled (targetRun s es).
Proof.
  induction es as [| e es IH]; intros s Hs; simpl; [done |].
  by apply IH, settled_step.
Qed.

Lemma gone_step s e :
  (targetGone s = true → lastTarget s = None) →
  (targetGone (targetStep s e) = true → lastTarget (targetStep s e) = None).
Proof.
  intros H. destruct e; simpl.
  - destruct (targetGone s) eqn:Hg; [intros _; by apply H |]. simpl. by rewrite Hg.
  - destruct (targetGone s) eqn:Hg; [intros _; by apply H | intros _; reflexivity].
  - destruct (runTargetHandlers_frame
      (tl_handler <$> filter (fun l => tl_el l = id ∧ tl_type l = ty)
                        (targetListeners s)) s)
      as (_ & _ & _ & _ & -> & -> & _). done.
  - by destruct (probeDecoded_frame i true s) as (_ & _ & _ & -> & -> & _).
  - by destruct (probeDecoded_frame i false s) as (_ & _ & _ & -> & -> & _).
Qed.

Lemma gone_run es : ∀ s,
  (targetGone s = true → lastTarget s = None) →
  (targetGone (targetRun s es) = true → lastTarget (targetRun s es) = None).
Proof.
  induction es as [| e es IH]; intros s H; simpl; [done |].
  by apply IH, gone_step.
Qed.

Lemma list_is_singleton {A : Type} (a : A) (ls : list A) :
  NoDup ls → (∀ x, x ∈ ls ↔ x = a) → ls = [a].
Proof.
  intros Hn Hin. destruct ls as [| x ls].
  - exfalso. eapply elem_of_nil. by apply Hin.
  - assert (x = a) as -> by (apply Hin; apply list_elem_of_here).
    f_equal. destruct ls as [| y ls]; [done |].
    apply NoDup_cons in Hn as [Hn _]. exfalso. apply Hn.
    assert (y = a) as -> by (apply Hin; apply list_elem_of_further, list_elem_of_here).
    apply list_elem_of_here.
Qed.

Lemma list_is_nil {A : Type} (ls : list A) : (∀ x, x ∉ ls) → ls = [].
Proof.
  destruct ls as [| x ls]; [done |]. intros H. exfalso.
  apply (H x), list_elem_of_here.
Qed.

(** After any run of renders, events and an unmount, the listeners on the
    resolved target are exactly those of the last render: one click
    listener with the current [handleOpen] on the current element, and, when
    [imgSrc] is truthy, one [load] listener whose [handleImgLoad] builds the
    probe of the current source.  Nothing is registered twice, nothing stays
    on an element that is no longer the target, and nothing is left after
    the unmount. *)
Theorem target_listeners_are_current (es : list TargetEvent) :
  let s := targetRun targetInit es in
  NoDup (targetListeners s) ∧
  (targetGone s = true → targetListeners s = []) ∧
  match lastTarget s with
  | None => targetListeners s = []
  | Some (el, fn) =>
      ∃ k, ∀ l, l ∈ targetListeners s ↔
                ∃ e, el = Some e ∧
                     (l = clickListener e fn ∨
                      (truthy (imgSrc (el_target e)) = true ∧
                       l = loadListener e k (probeOf el)))
  end.
Proof.
  intros s.
  destruct (settled_run es targetInit settled_init) as (Hnd & Hin & _ & _ & Hlast).
  fold s in Hnd, Hin, Hlast.
  assert (Hnone : lastTarget s = None → targetListeners s = []).
  { intros Hn. rewrite Hn in Hlast. destruct Hlast as [HL HC].
    apply list_is_nil. intros l. rewrite Hin, elem_of_owedListeners, HL, HC.
    by intros [? | ?]. }
  split; [done |]. split.
  - intros Hg. apply Hnone. by apply (gone_run es targetInit).
  - destruct (lastTarget s) as [[el fn] |]; [| by apply Hnone].
    destruct Hlast as [HC (k & HL)]. exists k. intros l.
    rewrite Hin, elem_of_owedListeners.
    destruct el as [e |]; cbn in HL, HC.
    + destruct (truthy (imgSrc (el_target e))) eqn:Hsrc;
        rewrite HL, HC; simpl; split.
      * intros [[= <-] | [= <-]]; exists e; (split; [done |]);
          [right; by split | by left].
      * intros (e' & [= <-] & [-> | [_ ->]]); [by right | by left].
      * intros [[=] | [= <-]]. exists e. split; [done | by left].
      * intros (e' & [= <-] & [-> | [Ht _]]); [by right | congruence].
    + rewrite HL, HC. simpl. split; [by intros [? | ?] |].
      by intros (e & [=] & _).
Qed.

(** A click on the current target runs the [handleOpen] of the last render
    exactly once, and a [load] event on it starts exactly one decode of the
    current source when [imgSrc] is truthy and none otherwise. *)
Theorem target_events_use_current_closures
    (es : list TargetEvent) (e : Resolved) (fn : Fn) :
  lastTarget (targetRun targetInit es) = Some (Some e, fn) →
  let s := targetRun targetInit es in
  opens (targetStep s (TFire (el_id e) ClickEv)) = opens s ++ [fn] ∧
  decodes (targetStep s (TFire (el_id e) ClickEv)) = decodes s ∧
  opens (targetStep s (TFire (el_id e) Load)) = opens s ∧
  decodes (targetStep s (TFire (el_id e) Load))
  = decodes s ++ (if truthy (imgSrc (el_target e)) then [probeOf (Some e)] else []).
Proof.
  intros Hlt s.
  destruct (settled_run es targetInit settled_init) as (Hnd & Hin & _ & _ & Hlast).
  fold s in Hnd, Hin, Hlast, Hlt. rewrite Hlt in Hlast.
  destruct Hlast as [HC (k & HL)]. cbn in HC, HL.
  assert (Hc : filter (fun l => tl_el l = el_id e ∧ tl_type l = ClickEv)
                 (targetListeners s) = [clickListener e fn]).
  { apply list_is_singleton; [by apply NoDup_filter |].
    intros l. rewrite list_elem_of_filter, Hin, elem_of_owedListeners, HL, HC.
    simpl. split.
    - intros [[_ Hty] [H | H]]; [| by injection H].
      destruct (truthy _); [| done]. injection H as <-. discriminate Hty.
    - intros ->. split; [done | by right]. }
  assert (Hl : filter (fun l => tl_el l = el_id e ∧ tl_type l = Load)
                 (targetListeners s)
               = if truthy (imgSrc (el_target e))
                 then [loadListener e k (probeOf (Some e))] else []).
  { destruct (truthy (imgSrc (el_target e))) eqn:Hsrc.
    - apply list_is_singleton; [by apply NoDup_filter |].
      intros l. rewrite list_elem_of_filter, Hin, elem_of_owedListeners, HL, HC.
      simpl. split.
      + intros [[_ Hty] [H | H]]; [by injection H |].
        injection H as <-. discriminate Hty.
      + intros ->. split; [done | by left].
    - apply list_is_nil. intros l.
      rewrite list_elem_of_filter, Hin, elem_of_owedListeners, HL, HC.
      simpl. intros [[_ Hty] [H | H]]; [done |].
      injection H as <-. discriminate Hty. }
  simpl.
  destruct (runTargetHandlers_frame
    (tl_handler <$> filter (fun l => tl_el l = el_id e ∧ tl_type l = ClickEv)
                      (targetListeners s)) s)
    as (_ & _ & _ & _ & _ & _ & -> & ->).
  destruct (runTargetHandlers_frame
    (tl_handler <$> filter (fun l => tl_el l = el_id e ∧ tl_type l = Load)
                      (targetListeners s)) s)
    as (_ & _ & _ & _ & _ & _ & -> & ->).
  rewrite Hc, Hl. simpl. rewrite app_nil_r.
  destruct (truthy (imgSrc (el_target e))); simpl; by rewrite ?app_nil_r.
Qed.

Lemma target_events_use_current_closures_witness :
  opens (targetRun targetInit
           [TRender (Some portrait) 1; TRender (Some portrait) 2;
            TFire 3 ClickEv]) = [2].
Proof.
  exact (proj1 (target_events_use_current_closures
    [TRender (Some portrait) 1; TRender (Some portrait) 2] portrait 2 eq_refl)).
Defined.

(** ** The natural asset *)

Lemma removeTargetListener_Forall (P : TargetListener → Prop) o ls :
  Forall P ls → Forall P (removeTargetListener o ls).
Proof.
  intros H. destruct o; simpl; [| done].
  rewrite Forall_forall in H. apply Forall_forall.
  intros x [_ Hx]%list_elem_of_filter. by apply H.
Qed.

Lemma registerTargetListener_Forall (P : TargetListener → Prop) o ls :
  Forall P ls → (∀ l, o = Some l → P l) → Forall P (registerTargetListener o ls).
Proof.
  intros H Ho. destruct o as [l |]; simpl; [| done].
  unfold addTargetListener. case_bool_decide; [done |].
  apply Forall_app. split; [done |]. apply Forall_singleton. by apply Ho.
Qed.

Lemma targetRender_Forall (P : TargetListener → Prop) el fn s :
  Forall P (targetListeners s) →
  (∀ e, el = Some e →
        truthy (default JsUndefined (imgSrc <$> targetOf el)) = true →
        P (loadListener e (S (effectRuns s)) (probeOf el))) →
  (∀ e, el = Some e → P (clickListener e fn)) →
  Forall P (targetListeners (targetRender el fn s)).
Proof.
  intros H HL HC. unfold targetRender. cbn [targetListeners].
  destruct (effectDue (loadDeps el) (loadEffect s)),
           (effectDue (clickDeps fn el) (clickEffect s));
    repeat first [ apply registerTargetListener_Forall
                 | apply removeTargetListener_Forall ]; try done.
  all: intros l Hl.
  all: try (destruct el as [e |]; [| done]; injection Hl as <-; by apply HC).
  all: destruct (truthy _) eqn:Hs; [| done].
  all: destruct el as [e |]; [| done]; injection Hl as <-; by apply HL.
Qed.

Lemma sourceless_step s e :
  sourceless e = true →
  decodes s = [] → loadedImgEl s = None →
  Forall (fun l => ∃ fn, tl_handler l = HandleOpen fn) (targetListeners s) →
  decodes (targetStep s e) = [] ∧ loadedImgEl (targetStep s e) = None ∧
  Forall (fun l => ∃ fn, tl_handler l = HandleOpen fn)
    (targetListeners (targetStep s e)).
Proof.
  intros He Hd Hl Hf. destruct e as [el hfn | | id ty | i | i]; simpl in *.
  - destruct (targetGone s); [done |].
    apply negb_true_iff in He. split; [| split].
    + unfold targetRender. cbn [decodes]. by rewrite He, andb_false_r.
    + done.
    + apply targetRender_Forall; [done | | by eauto].
      intros e0 _ Hs. by rewrite He in Hs.
  - destruct (targetGone s); [done |]. unfold targetUnmount. simpl.
    split; [done |]. split; [done |].
    apply Forall_forall. intros l. rewrite !elem_of_removeTargetListener.
    rewrite Forall_forall in Hf. intros [[H _] _]. by apply Hf.
  - destruct (runTargetHandlers_frame
      (tl_handler <$> filter (fun l => tl_el l = id ∧ tl_type l = ty)
                        (targetListeners s)) s)
      as (-> & -> & _ & _ & _ & _ & -> & _).
    split; [| done]. rewrite Hd. simpl.
    assert (Hh : Forall (fun h => ∃ fn, h = HandleOpen fn)
              (tl_handler <$> filter (fun l => tl_el l = id ∧ tl_type l = ty)
                                (targetListeners s))).
    { apply Forall_fmap. rewrite Forall_forall in Hf. apply Forall_forall.
      intros x [_ Hx]%list_elem_of_filter. by apply Hf. }
    induction Hh as [| h hs (fn & ->) _ IH]; [done | by simpl].
  - unfold probeDecoded. by rewrite Hd.
  - unfold probeDecoded. by rewrite Hd.
Qed.

(** If no render resolves a target with a truthy [imgSrc], the first effect
    never builds a probe: no decode is pending, [loadedImgEl] stays unset
    and no [load] listener is registered; so for a target that is not an SVG
    the modal image never gets a computed style. *)
Theorem sourceless_target_never_loads (es : list TargetEvent) :
  forallb sourceless es = true →
  let s := targetRun targetInit es in
  decodes s = [] ∧
  loadedImgEl s = None ∧
  (∀ l, l ∈ targetListeners s → tl_type l = ClickEv) ∧
  (∀ p el g c, testSvg el = false →
     styleModalImg p el (bool_decide (is_Some (loadedImgEl s))) g c = None).
Proof.
  intros Hes s.
  assert (H : ∀ s0, decodes s0 = [] → loadedImgEl s0 = None →
              Forall (fun l => ∃ fn, tl_handler l = HandleOpen fn) (targetListeners s0) →
              decodes (targetRun s0 es) = [] ∧ loadedImgEl (targetRun s0 es) = None ∧
              Forall (fun l => ∃ fn, tl_handler l = HandleOpen fn)
                (targetListeners (targetRun s0 es))).
  { induction es as [| e es IH]; intros s0 Hd Hl Hf; simpl; [done |].
    simpl in Hes. apply andb_prop in Hes as [He Hes].
    destruct (sourceless_step s0 e He Hd Hl Hf) as (Hd' & Hl' & Hf').
    by apply IH. }
  destruct (H targetInit eq_refl eq_refl ltac:(constructor)) as (Hd & Hl & Hf).
  destruct (settled_run es targetInit settled_init) as (_ & Hin & HtL & HtC & Hlast).
  fold s in Hd, Hl, Hf, Hin, HtL, HtC, Hlast.
  split; [done |]. split; [done |]. split.
  - intros l Hlin. rewrite Forall_forall in Hf.
    destruct (Hf l Hlin) as [fn Hfn].
    apply Hin, elem_of_owedListeners in Hlin as [Hx | Hx]; [| by apply HtC].
    exfalso.
    destruct (lastTarget s) as [[el fn'] |].
    + destruct Hlast as [_ (k & HL)]. rewrite HL in Hx. simpl in Hx.
      destruct (truthy _), el; simpl in Hx; try discriminate Hx.
      injection Hx as <-. discriminate Hfn.
    + destruct Hlast as [HL _]. by rewrite HL in Hx.
  - intros p el g c Hsvg. unfold styleModalImg. rewrite Hl, Hsvg.
    assert (Hb : bool_decide (is_Some (@None Probe)) = false) by reflexivity.
    rewrite Hb. simpl. by rewrite andb_false_r.
Qed.

Lemma sourceless_target_never_loads_witness :
  loadedImgEl (targetRun targetInit
                 [TRender (Some pane) 1; TFire 4 Load; TDecoded 0]) = None.
Proof.
  exact (proj1 (proj2 (sourceless_target_never_loads
    [TRender (Some pane) 1; TFire 4 Load; TDecoded 0] eq_refl))).
Defined.

Lemma vouched_weaken R R' s : R ⊆ R' → vouched R s → vouched R' s.
Proof.
  intros Hsub (H1 & H2 & H3). split; [| split].
  - eapply Forall_impl; [done |]. intros pr. apply Hsub.
  - intros pr Hpr. by apply Hsub, H2.
  - intros l k pr Hl Hh. by apply Hsub, (H3 l k).
Qed.

Lemma vouched_step R s e :
  vouched R s → vouched (R ++ requested [e]) (targetStep s e).
Proof.
  intros Hv.
  assert (Hw : vouched (R ++ requested [e]) s).
  { eapply vouched_weaken; [| done]. intros x Hx. apply elem_of_app. by left. }
  destruct Hw as (H1 & H2 & H3).
  destruct e as [el hfn | | id ty | i | i]; simpl.
  - destruct (targetGone s); [done |].
    unfold targetRender.
    set (src := truthy (default JsUndefined (imgSrc <$> targetOf el))).
    assert (Hreq : src = true → probeOf el ∈ R ++ requested [TRender el hfn]).
    { intros Hs. apply elem_of_app. right. unfold requested. simpl.
      fold src. rewrite Hs. apply list_elem_of_here. }
    split; [| split]; cbn [decodes loadedImgEl targetListeners].
    + destruct (effectDue _ _ && src) eqn:Hd; [| done].
      apply andb_prop in Hd as [_ Hs]. apply Forall_app. split; [done |].
      apply Forall_singleton. by apply Hreq.
    + done.
    + assert (Hf : Forall (fun l => ∀ k pr, tl_handler l = HandleImgLoad k pr →
                             pr ∈ R ++ requested [TRender el hfn])
                     (targetListeners (targetRender el hfn s))).
      { apply targetRender_Forall.
        - apply Forall_forall. intros l Hl k pr. by apply H3.
        - intros e0 _ Hs k pr [= _ <-]. by apply Hreq.
        - by intros e0 _ k pr [=]. }
      rewrite Forall_forall in Hf. intros l k pr Hl. by apply Hf.
  - destruct (targetGone s); [done |]. unfold targetUnmount.
    split; [done |]. split; [done |]. cbn [targetListeners].
    intros l k pr. rewrite !elem_of_removeTargetListener.
    intros [[H _] _] Hh. by eapply H3.
  - destruct (runTargetHandlers_frame
      (tl_handler <$> filter (fun l => tl_el l = id ∧ tl_type l = ty)
                        (targetListeners s)) s)
      as (Hl & Ht & _ & _ & _ & _ & Hd & _).
    split; [| split].
    + rewrite Hd. apply Forall_app. split; [done |].
      apply Forall_forall. intros pr.
      rewrite list_elem_of_omap. intros (h & Hh & Hpr).
      apply list_elem_of_fmap in Hh as (l & -> & Hlin).
      apply list_elem_of_filter in Hlin as [_ Hlin].
      destruct (tl_handler l) eqn:Hth; [| done]. injection Hpr as <-.
      by eapply H3.
    + by rewrite Hl.
    + by rewrite Ht.
  - unfold probeDecoded. destruct (decodes s !! i) as [pr |] eqn:Hi; [| done].
    split; [| split]; simpl.
    + rewrite Forall_forall in H1. apply Forall_forall. intros x Hx.
      apply H1. by eapply list_elem_of_delete_inv.
    + intros pr' [= <-]. rewrite Forall_forall in H1. apply H1.
      by eapply list_elem_of_lookup_2.
    + done.
  - unfold probeDecoded. destruct (decodes s !! i) as [pr |] eqn:Hi; [| done].
    split; [| split]; simpl.
    + rewrite Forall_forall in H1. apply Forall_forall. intros x Hx.
      apply H1. by eapply list_elem_of_delete_inv.
    + done.
    + done.
Qed.

Lemma requested_app es es' : requested (es ++ es') = requested es ++ requested es'.
Proof. unfold requested. apply omap_app. Qed.

Lemma vouched_run es : ∀ R s,
  vouched R s → vouched (R ++ requested es) (targetRun s es).
Proof.
  induction es as [| e es IH]; intros R s Hv.
  - unfold requested. simpl. by rewrite app_nil_r.
  - change (targetRun s (e :: es)) with (targetRun (targetStep s e) es).
    replace (requested (e :: es)) with (requested [e] ++ requested es)
      by (symmetry; apply (requested_app [e] es)).
    rewrite app_assoc. apply IH. by apply vouched_step.
Qed.

(** The natural asset is always an image the first effect asked for: when
    [loadedImgEl] is set, it is the probe of a target some render of the run
    resolved with a truthy [imgSrc]; its [sizes] and [srcset] are those of
    that target when it is an image and empty otherwise.  Nothing makes it
    the probe of the last render. *)
Theorem natural_asset_was_requested (es : list TargetEvent) (pr : Probe) :
  loadedImgEl (targetRun targetInit es) = Some pr →
  ∃ el fn, TRender el fn ∈ es ∧
           truthy (default JsUndefined (imgSrc <$> targetOf el)) = true ∧
           pr = probeOf el.
Proof.
  intros Hl.
  destruct (vouched_run es [] targetInit) as (_ & H2 & _).
  { split; [done |]. split; [by intros pr0 [=] |].
    intros l k pr0 Hin. by apply elem_of_nil in Hin. }
  apply H2 in Hl. rewrite app_nil_l in Hl.
  unfold requested in Hl. apply list_elem_of_omap in Hl as (e & He & Hpr).
  destruct e as [el fn | | | |]; try discriminate Hpr.
  destruct (truthy _) eqn:Hs; [| discriminate Hpr]. injection Hpr as <-.
  by exists el, fn.
Qed.

Lemma natural_asset_was_requested_witness :
  ∃ el fn,
    TRender el fn ∈ [TRender (Some portrait) 1; TRender (Some pane) 1; TDecoded 0] ∧
    truthy (default JsUndefined (imgSrc <$> targetOf el)) = true ∧
    probeOf (Some portrait) = probeOf el.
Proof.
  exact (natural_asset_was_requested
    [TRender (Some portrait) 1; TRender (Some pane) 1; TDecoded 0]
    (probeOf (Some portrait)) eq_refl).
Defined.
